(** * replier: a service-call replier on top of a discovery node

    A shallow embedding of [src/cpp/replier.cc] (the functions [echo],
    [PrintUsage], [ReadArgs] and [main]) together with the parts of
    Boost.Program_options and of the discovery node ([disc_zmq.hh]) that
    the program relies on.

    - [Cxx]       the control effects of the C++ code: a normal return, a
                  propagating exception, [abort()] after a failed
                  [assert], and a call that never returns; the state is
                  passed explicitly;
    - [po]        [boost::program_options]: option descriptions, the
                  variables map, [store] and [notify]; the command line
                  parser and the printing of the options are an interface
                  with one reference instance;
    - [disc_zmq]  what the program sees of the node: callbacks, the world
                  of the process, the member functions [main] calls;
    - [replier]   the four functions of the program;
    - [node]      the node, reconstructed from the specification.

    The definitions are followed by the vocabulary of the statements,
    the lemmas, and the claims C1 to C10 with an example run each;
    further properties of the code, X1 to X14, close the file. *)

From Stdlib Require Import ZArith Ascii.
From stdpp Require Import base option list strings gmap.

Local Open Scope Z_scope.

(* ===================================================================== *)
(** ** Control effects *)
(* ===================================================================== *)

Module Cxx.

(** Errors reported by Boost.Program_options and [boost::any]. Every
    one of them leaves the library through [boost::throw_exception]. *)
Inductive syntax_kind : Type :=
| empty_adjacent_parameter
| missing_parameter
| extra_parameter.

Inductive validation_kind : Type :=
| multiple_values_not_allowed
| at_least_one_value_required.

Inductive po_error : Type :=
| unknown_option (name : string)
| ambiguous_option (name : string)
| multiple_occurrences (name : string)
| multiple_values (name : string)
| invalid_command_line_syntax (kind : syntax_kind) (token : string)
| too_many_positional_options_error
| validation_error (kind : validation_kind) (name : string)
| bad_any_cast.

(** The dynamic type of a thrown object, as far as a handler can tell:
    [boost::throw_exception(e)] throws [wrapexcept<E>], which has
    [boost::exception] among its bases; anything else has not. *)
Inductive exception : Type :=
| boost_wrapexcept (e : po_error)
| std_exception (what : string).

Inductive outcome (A : Type) : Type :=
| Returns (a : A)          (* the call returns [a] *)
| Throws (e : exception)   (* an exception leaves the call *)
| Aborts                   (* a failed [assert]: the process is killed *)
| Hangs.                   (* the call never returns *)
Arguments Returns {A} a.
Arguments Throws {A} e.
Arguments Aborts {A}.
Arguments Hangs {A}.

(** A computation over a state [S]. The state that comes back with
    [Throws], [Aborts] or [Hangs] is the state at that point. *)
Definition M (S A : Type) : Type := S -> outcome A * S.

Definition ret {S A} (a : A) : M S A := fun s => (Returns a, s).

Definition bind {S A B} (m : M S A) (k : A -> M S B) : M S B :=
  fun s =>
    match m s with
    | (Returns a, s') => k a s'
    | (Throws e, s') => (Throws e, s')
    | (Aborts, s') => (Aborts, s')
    | (Hangs, s') => (Hangs, s')
    end.

Definition throw {S A} (e : exception) : M S A := fun s => (Throws e, s).

(** [boost::throw_exception(e)] *)
Definition throw_exception {S A} (e : po_error) : M S A :=
  throw (boost_wrapexcept e).

(** [try { body } catch (boost::exception &_e) { handler }] *)
Definition try_catch_boost {S A} (body : M S A) (handler : po_error -> M S A)
  : M S A :=
  fun s =>
    match body s with
    | (Throws (boost_wrapexcept e), s') => handler e s'
    | r => r
    end.

(** [assert(b)], assertions enabled *)
Definition assert {S} (b : bool) : M S unit :=
  fun s => if b then (Returns tt, s) else (Aborts, s).

Definition get {S} : M S S := fun s => (Returns s, s).
Definition modify {S} (f : S -> S) : M S unit := fun s => (Returns tt, f s).

(** Run a computation on a component of a larger state. *)
Definition zoom {S T A} (proj : T -> S) (upd : S -> T -> T) (m : M S A)
  : M T A :=
  fun t => let '(o, s') := m (proj t) in (o, upd s' t).

Definition returned {A} (o : outcome A) : bool :=
  match o with Returns _ => true | _ => false end.

Definition omap {A B} (f : A -> B) (o : outcome A) : outcome B :=
  match o with
  | Returns a => Returns (f a)
  | Throws e => Throws e
  | Aborts => Aborts
  | Hangs => Hangs
  end.

Declare Scope cxx_scope.
Delimit Scope cxx_scope with cxx.
Notation "'let*' x ':=' c1 'in' c2" := (bind c1 (fun x => c2))
  (at level 10, x pattern, c1 at level 100, c2 at level 200) : cxx_scope.
Notation "c1 ;; c2" := (bind c1 (fun _ => c2))
  (at level 100, right associativity) : cxx_scope.

(** [std::cout]: the texts written so far, one entry per output
    statement. *)
Definition ostream : Type := list string.

(** the character written by [std::endl] and by the escape [\n] *)
Definition endl : string := String (Ascii.ascii_of_nat 10) EmptyString.

(** [std::cout << text;] *)
Definition cout (text : string) : M ostream unit :=
  modify (fun out => out ++ [text]).

End Cxx.
Import Cxx.
Local Open Scope cxx_scope.

(* ===================================================================== *)
(** ** Boost.Program_options *)
(* ===================================================================== *)

Module po.

Section with_storage.
(** [ref]: the [std::string] objects that option values are bound to
    with [po::value<std::string>(&x)]. *)
Context {ref : Type}.

(** [value_semantic]: an option declared without a value is an
    [untyped_value] taking no token; [po::value<std::string>(&x)] is a
    [typed_value<std::string>] taking exactly one, with an optional
    [default_value]. *)
Inductive value_semantic : Type :=
| untyped_value
| typed_value (m_store_to : option ref) (m_default_value : option string).

Definition min_tokens (s : value_semantic) : nat :=
  match s with untyped_value => 0 | typed_value _ _ => 1 end.
Definition max_tokens (s : value_semantic) : nat :=
  match s with untyped_value => 0 | typed_value _ _ => 1 end.

Record option_description : Type := {
  m_long_name : string;
  m_short_name : string;       (* with its dash: "-h"; "" when absent *)
  m_description : string;
  semantic : value_semantic
}.

Record options_description : Type := {
  m_caption : string;
  m_options : list option_description
}.

(** [option_description::set_name]: "help,h" has long name "help" and
    short name "-h". *)
Fixpoint set_name (name : string) : string * string :=
  match name with
  | EmptyString => (EmptyString, EmptyString)
  | String ","%char rest => (EmptyString, "-" +:+ String.substring 0 1 rest)
  | String c rest =>
      let '(long, short) := set_name rest in (String c long, short)
  end.

(** [add_options()(name, description)] and
    [add_options()(name, semantic, description)] *)
Definition flag (name description : string) : option_description :=
  {| m_long_name := fst (set_name name);
     m_short_name := snd (set_name name);
     m_description := description;
     semantic := untyped_value |}.
Definition valued (name : string) (s : value_semantic)
    (description : string) : option_description :=
  {| m_long_name := fst (set_name name);
     m_short_name := snd (set_name name);
     m_description := description;
     semantic := s |}.

(** [options_description::add(const options_description &)] *)
Definition add (d group : options_description) : options_description :=
  {| m_caption := m_caption d;
     m_options := m_options d ++ m_options group |}.

(** [option_description::key]: the name options are stored under *)
Definition key (d : option_description) : string :=
  if String.eqb (m_long_name d) "" then m_short_name d
  else m_long_name d.

Inductive match_result : Type := no_match | full_match | approximate_match.

Definition is_full (r : match_result) : bool :=
  match r with full_match => true | _ => false end.
Definition is_approximate (r : match_result) : bool :=
  match r with approximate_match => true | _ => false end.

(** [option_description::match], case sensitive; with [approx] a
    prefix of the long name matches too. (A long name that ends in a star
    matches by prefix as well; the program declares none.) *)
Definition match_ (d : option_description) (name : string) (approx : bool)
  : match_result :=
  let r :=
    if String.eqb (m_long_name d) "" then no_match
    else if String.eqb (m_long_name d) name then full_match
    else if approx && String.prefix name (m_long_name d)
         then approximate_match
    else no_match in
  match r with
  | full_match => full_match
  | _ => if String.eqb (m_short_name d) name then full_match else r
  end.

(** [options_description::find_nothrow]: the description [name]
    denotes, if any; more than one full match, or no full match and
    more than one approximate match, is an [ambiguous_option]. *)
Definition find_nothrow (desc : options_description) (name : string)
    (approx : bool) : po_error + option option_description :=
  let full :=
    List.filter (fun d => is_full (match_ d name approx)) (m_options desc) in
  let appr :=
    List.filter (fun d => is_approximate (match_ d name approx))
                (m_options desc) in
  match full, appr with
  | _ :: _ :: _, _ => inl (ambiguous_option name)
  | [d], _ => inr (Some d)
  | [], _ :: _ :: _ => inl (ambiguous_option name)
  | [], [d] => inr (Some d)
  | [], [] => inr None
  end.

(** [options_description::find] *)
Definition find (desc : options_description) (name : string)
    (approx : bool) : po_error + option_description :=
  match find_nothrow desc name approx with
  | inl e => inl e
  | inr None => inl (unknown_option name)
  | inr (Some d) => inr d
  end.

(** [positional_options_description]: names with the number of
    positions each takes, in the order of [add]. *)
Definition positional_options_description : Type := list (string * nat).

Definition max_total_count (p : positional_options_description) : nat :=
  foldr (fun e n => (snd e + n)%nat) 0%nat p.

Fixpoint name_for_position (p : positional_options_description)
    (position : nat) : string :=
  match p with
  | [] => ""
  | (name, count) :: rest =>
      if (position <? count)%nat then name
      else name_for_position rest (position - count)
  end.

(** [basic_option<char>]: one option as found on the command line.
    [string_key] is empty for a positional argument that has not been
    given its name. *)
Record basic_option : Type := {
  string_key : string;
  position_key : Z;
  value : list string;
  unregistered : bool
}.

(** [variable_value]: the [boost::any] of every option of this
    program holds a [std::string]. *)
Record variable_value : Type := {
  v : string;
  m_defaulted : bool;
  m_value_semantic : value_semantic
}.

(** [variables_map]: a [std::map<std::string, variable_value>] and
    the names whose value is final. *)
Record variables_map : Type := {
  m : gmap string variable_value;
  m_final : gset string
}.

Definition empty_variables_map : variables_map :=
  {| m := ∅; m_final := ∅ |}.

(** [vm.count(name)] *)
Definition count (vm : variables_map) (name : string) : nat :=
  match m vm !! name with Some _ => 1 | None => 0 end.

(** [vm[name].as<std::string>()]; [operator[]] of a missing name is an
    empty value, which [as] refuses with [bad_any_cast]. *)
Definition as_string (vm : variables_map) (name : string)
  : po_error + string :=
  match m vm !! name with
  | Some x => inr (v x)
  | None => inl bad_any_cast
  end.

(** [value_semantic::parse]: [untyped_value::xparse], and for a typed
    value [validate(any &, const vector<string> &, std::string *, int)].
    [value_store] is the value the variable holds already. *)
Definition xparse (s : value_semantic) (name : string)
    (value_store : option string) (new_tokens : list string)
  : po_error + string :=
  match s with
  | untyped_value =>
      match value_store with
      | Some _ => inl (multiple_occurrences name)
      | None =>
          match new_tokens with
          | [] => inr ""
          | [t] => inr t
          | _ :: _ :: _ => inl (multiple_values name)
          end
      end
  | typed_value _ _ =>
      match value_store with
      | Some _ => inl (multiple_occurrences name)
      | None =>
          match new_tokens with
          | _ :: _ :: _ =>
              inl (validation_error multiple_values_not_allowed name)
          | [t] => inr t
          | [] => inl (validation_error at_least_one_value_required name)
          end
      end
  end.

(** The first loop of [store]: one parsed option. *)
Definition store_option (desc : options_description) (final : gset string)
    (xm : gmap string variable_value) (o : basic_option)
  : po_error + gmap string variable_value :=
  let option_name := string_key o in
  if String.eqb option_name "" then inr xm
  else if unregistered o then inr xm
  else if bool_decide (option_name ∈ final) then inr xm
  else
    match find desc option_name false with
    | inl e => inl e
    | inr d =>
        let value_store :=
          match xm !! option_name with
          | Some x => if m_defaulted x then None else Some (v x)
          | None => None
          end in
        match xparse (semantic d) option_name value_store (value o) with
        | inl e => inl e
        | inr s =>
            inr (<[option_name :=
                     {| v := s; m_defaulted := false;
                        m_value_semantic := semantic d |}]> xm)
        end
    end.

Fixpoint store_options (desc : options_description) (final : gset string)
    (xm : gmap string variable_value) (options : list basic_option)
  : po_error + gmap string variable_value :=
  match options with
  | [] => inr xm
  | o :: rest =>
      match store_option desc final xm o with
      | inl e => inl e
      | inr xm' => store_options desc final xm' rest
      end
  end.

(** The names given a value by this call become final. *)
Definition new_final (options : list basic_option) (final : gset string)
  : gset string :=
  list_to_set
    (filter (fun n => n ≠ "" ∧ n ∉ final)
       (string_key <$> filter (fun o => unregistered o = false) options)).

(** The second loop of [store]: a description with a default value
    whose key is not in the map gets that value, marked defaulted. *)
Definition apply_default (xm : gmap string variable_value)
    (d : option_description) : gmap string variable_value :=
  if String.eqb (key d) "" then xm
  else
    match semantic d with
    | typed_value _ (Some def) =>
        match xm !! key d with
        | None =>
            <[key d := {| v := def; m_defaulted := true;
                          m_value_semantic := semantic d |}]> xm
        | Some _ => xm
        end
    | _ => xm
    end.

(** [store(parsed_options, vm)] *)
Definition store (desc : options_description) (options : list basic_option)
    (vm : variables_map) : po_error + variables_map :=
  match store_options desc (m_final vm) (m vm) options with
  | inl e => inl e
  | inr xm =>
      inr {| m := foldl apply_default xm (m_options desc);
             m_final := m_final vm ∪ new_final options (m_final vm) |}
  end.

(** The entry of the map under a name of an option, if the option
    has that name. *)
Definition entry (xm : gmap string variable_value) (name : string)
  : option variable_value :=
  if String.eqb name "" then None else xm !! name.

(** [notify(vm)]: [variables_map::notify] runs over the map in the
    order of its keys and hands every value to the [value_semantic] it
    was parsed with; a [typed_value] copies it to the variable it is
    bound to.  The entries parsed with the semantic of [d] are those
    under its long name and under its short name; the short name
    begins with a dash and sorts first, so the value under the long
    name is the one that stays. No option of the program is required. *)
Definition notify_option {St : Type} (assign : ref -> string -> St -> St)
    (xm : gmap string variable_value) (st : St) (d : option_description)
  : St :=
  match semantic d with
  | typed_value (Some x) _ =>
      match entry xm (m_long_name d), entry xm (m_short_name d) with
      | Some e, _ => assign x (v e) st
      | None, Some e => assign x (v e) st
      | None, None => st
      end
  | _ => st
  end.

Definition notify {St : Type} (assign : ref -> string -> St -> St)
    (desc : options_description) (vm : variables_map) (st : St) : St :=
  foldl (notify_option assign (m vm)) st (m_options desc).

(** The services of the library that the program uses as they are:
    [command_line_parser(argc, argv).options(desc).positional(p).run()],
    which gives the options of the command line, every key the [key] of
    the description it was matched with, or throws; and [operator<<]
    of an [options_description]. *)
Class library : Type := {
  run : options_description -> positional_options_description ->
        list string -> po_error + list basic_option;
  stream : options_description -> string
}.

End with_storage.
(** *** The command line parser, default style

    A model of [detail::cmdline::run] under [unix_style]: long options
    ([--name], [--name=value], [--name value], unambiguous prefixes of
    a long name), short options ([-n], [-nvalue], [-n value], grouped
    flags), the terminator [--] and positional arguments. It is the
    instance of [library] the examples run on. *)
Section cmdline.
Context {ref : Type}.
Variable m_desc : options_description (ref := ref).
Variable m_positional : positional_options_description.

Definition keyed (name : string) (values : list string)
  : basic_option :=
  {| string_key := name; position_key := -1; value := values;
     unregistered := false |}.

Definition unnamed (position : Z) (token : string) : basic_option :=
  {| string_key := ""; position_key := position; value := [token];
     unregistered := false |}.

Definition INT_MAX : Z := 2147483647.

Definition suffix_from (n : nat) (s : string) : string :=
  String.substring n (String.length s - n) s.

(** [cmdline::parse_long_option] on the token [tok] *)
Definition parse_long_option (tok : string)
  : po_error + option basic_option :=
  if (3 <=? String.length tok)%nat && String.prefix "--" tok then
    match String.index 0 "=" tok with
    | Some p =>
        let name := String.substring 2 (p - 2) tok in
        let adjacent := suffix_from (p + 1) tok in
        if String.eqb adjacent ""
        then inl (invalid_command_line_syntax empty_adjacent_parameter name)
        else inr (Some (keyed name [adjacent]))
    | None => inr (Some (keyed (suffix_from 2 tok) []))
    end
  else inr None.

(** The loop of [cmdline::parse_short_option]: [name] is the option
    at hand, [adjacent] the rest of the token. After a flag the rest
    is a further group of options, otherwise it is the value. *)
Fixpoint short_group (name adjacent : string)
  : po_error + list basic_option :=
  match find_nothrow m_desc name false with
  | inl e => inl e
  | inr d =>
      match adjacent with
      | EmptyString => inr [keyed name []]
      | String c adjacent' =>
          match d with
          | Some d' =>
              if (max_tokens (semantic d') =? 0)%nat then
                match short_group (String "-" (String c "")) adjacent' with
                | inl e => inl e
                | inr more => inr (keyed name [] :: more)
                end
              else inr [keyed name [adjacent]]
          | None => inr [keyed name [adjacent]]
          end
      end
  end.

(** [cmdline::parse_short_option] *)
Definition parse_short_option (tok : string)
  : po_error + option (list basic_option) :=
  if (2 <=? String.length tok)%nat && String.prefix "-" tok
     && negb (String.prefix "--" tok)
  then
    match short_group (String.substring 0 2 tok) (suffix_from 2 tok) with
    | inl e => inl e
    | inr next => inr (Some next)
    end
  else inr None.

(** What the style parsers make of the first token: options read
    from it, the end of the options ([cmdline::parse_terminator]), or
    nothing. *)
Inductive style_result : Type :=
| keyed_options (next : list basic_option)
| terminator
| no_option.

Definition style_parsers (tok : string) : po_error + style_result :=
  match parse_long_option tok with
  | inl e => inl e
  | inr (Some o) => inr (keyed_options [o])
  | inr None =>
      match parse_short_option tok with
      | inl e => inl e
      | inr (Some next) => inr (keyed_options next)
      | inr None =>
          if String.eqb tok "--" then inr terminator else inr no_option
      end
  end.

(** [cmdline::finish_option]: check the name, replace it by the key
    of its description and take the value from the next token where
    one is due. [other_token] is the token that follows, if any; the
    boolean tells whether it was taken. *)
Definition finish_option (opt : basic_option) (other_token : option string)
  : po_error + (basic_option * bool) :=
  if String.eqb (string_key opt) "" then inr (opt, false)
  else
    match find_nothrow m_desc (string_key opt) true with
    | inl e => inl e
    | inr None => inl (unknown_option (string_key opt))
    | inr (Some d) =>
        let min := min_tokens (semantic d) in
        let max := max_tokens (semantic d) in
        let present :=
          (length (value opt)
           + match other_token with Some _ => 1 | None => 0 end)%nat in
        if (min <=? present)%nat then
          if negb (length (value opt) =? 0)%nat && (max =? 0)%nat
          then inl (invalid_command_line_syntax extra_parameter
                      (string_key opt))
          else
            match other_token with
            | Some tok =>
                if (0 <? min - length (value opt))%nat then
                  match style_parsers tok with
                  | inl e => inl e
                  | inr (keyed_options _) =>
                      match find_nothrow m_desc tok true with
                      | inl e => inl e
                      | inr (Some _) =>
                          inl (invalid_command_line_syntax
                                 missing_parameter tok)
                      | inr None =>
                          inr (keyed (key d) (value opt ++ [tok]), true)
                      end
                  | inr _ =>
                      inr (keyed (key d) (value opt ++ [tok]), true)
                  end
                else inr (keyed (key d) (value opt), false)
            | None => inr (keyed (key d) (value opt), false)
            end
        else inl (invalid_command_line_syntax missing_parameter
                    (string_key opt))
    end.

(** The options read from one token: all but the last are finished
    with no token to take. *)
Fixpoint finish_options (next : list basic_option)
    (other_token : option string)
  : po_error + (list basic_option * bool) :=
  match next with
  | [] => inr ([], false)
  | [opt] =>
      match finish_option opt other_token with
      | inl e => inl e
      | inr (opt', taken) => inr ([opt'], taken)
      end
  | opt :: rest =>
      match finish_option opt None with
      | inl e => inl e
      | inr (opt', _) =>
          match finish_options rest other_token with
          | inl e => inl e
          | inr (rest', taken) => inr (opt' :: rest', taken)
          end
      end
  end.

(** The main loop of [cmdline::run] *)
Fixpoint run_loop (args : list string) : po_error + list basic_option :=
  match args with
  | [] => inr []
  | tok :: rest =>
      match style_parsers tok with
      | inl e => inl e
      | inr (keyed_options next) =>
          match finish_options next (head rest) with
          | inl e => inl e
          | inr (next', taken) =>
              let more :=
                match taken, rest with
                | true, _ :: rest' => run_loop rest'
                | _, _ => run_loop rest
                end in
              match more with
              | inl e => inl e
              | inr result => inr (next' ++ result)
              end
          end
      | inr terminator => inr (unnamed INT_MAX <$> rest)
      | inr no_option =>
          match run_loop rest with
          | inl e => inl e
          | inr result => inr (unnamed (-1) tok :: result)
          end
      end
  end.

(** The end of [cmdline::run]: an option without a name is a
    positional argument; it gets its position and the name declared
    for that position. No option of this model takes a variable
    number of tokens, so none takes over a positional argument. *)
Fixpoint name_positionals (position : nat) (result : list basic_option)
  : po_error + list basic_option :=
  match result with
  | [] => inr []
  | opt :: rest =>
      if String.eqb (string_key opt) "" then
        if (max_total_count m_positional <=? position)%nat
        then inl too_many_positional_options_error
        else
          match name_positionals (S position) rest with
          | inl e => inl e
          | inr rest' =>
              inr ({| string_key := name_for_position m_positional position;
                      position_key := Z.of_nat position;
                      value := value opt;
                      unregistered := unregistered opt |} :: rest')
          end
      else
        match name_positionals position rest with
        | inl e => inl e
        | inr rest' => inr (opt :: rest')
        end
  end.

(** [command_line_parser(argc, argv).options(desc).positional(p).run()]:
    [argv[0]] is the name of the program. *)
Definition command_line_parser_run (argv : list string)
  : po_error + list basic_option :=
  match run_loop (tail argv) with
  | inl e => inl e
  | inr result => name_positionals 0 result
  end.

End cmdline.

Section printing.
Context {ref : Type}.

(** [operator<<(std::ostream &, const options_description &)]: the
    caption and one line per option with its names, its parameter and
    its description; the alignment of the descriptions in a column is
    not reproduced. *)
Definition format_name (d : option_description (ref := ref)) : string :=
  if String.eqb (m_short_name d) "" then "--" +:+ m_long_name d
  else m_short_name d +:+ " [ --" +:+ m_long_name d +:+ " ]".

Definition format_parameter (d : option_description (ref := ref))
  : string :=
  match semantic d with
  | untyped_value => ""
  | typed_value _ None => " arg"
  | typed_value _ (Some def) => " arg (=" +:+ def +:+ ")"
  end.

Definition print_options (desc : options_description (ref := ref))
  : string :=
  m_caption desc +:+ ":" +:+ endl +:+
  foldr (fun d text =>
           "  " +:+ format_name d +:+ format_parameter d +:+ "  "
           +:+ m_description d +:+ endl +:+ text)
        "" (m_options desc).

Definition boost_library : library (ref := ref) :=
  {| run := command_line_parser_run;
     stream := print_options |}.

End printing.

Arguments value_semantic : clear implicits.
Arguments option_description : clear implicits.
Arguments options_description : clear implicits.
Arguments variable_value : clear implicits.
Arguments variables_map : clear implicits.
Arguments library : clear implicits.

End po.

(* ===================================================================== *)
(** ** disc_zmq.hh: what the program sees of the node *)
(* ===================================================================== *)

Module disc_zmq.

(** The type of a service callback,
    [int (const std::string &, const std::string &, std::string &)]:
    the third argument is the reply on entry, the result carries the
    return value and the reply on exit. A callback may write to
    [std::cout]. *)
Definition callback : Type :=
  string -> string -> string -> M ostream (Z * string).

(** Modelled from the spec: an address on the transport; [disc_zmq.hh]
    is not among the sources. *)
Definition Endpoint : Type := string.

(** Modelled from the spec: the kinds of message. *)
Inductive Kind : Type := Announce | Request | Response.

(** Modelled from the spec: the wire-level message, decoded.
    [correlationId] is meaningful for [Request] and [Response],
    [status] for [Response]. *)
Record Envelope : Type := {
  kind : Kind;
  name : string;
  correlationId : N;
  senderEndpoint : Endpoint;
  payload : string;
  status : Z
}.

(** Modelled from the spec: what reaches the process from outside, in
    order: a message on the transport, the passing of one polling
    interval, the stop signal. *)
Inductive event : Type :=
| Inbound (e : Envelope)
| Tick
| StopSignal.

(** Modelled from the spec: the surroundings of the process: its
    standard output, the events still to come, and what it has sent
    ([None]: a broadcast). *)
Record world : Type := {
  stdout : ostream;
  inbox : list event;
  outbox : list (option Endpoint * Envelope)
}.

Definition set_stdout (out : ostream) (w : world) : world :=
  {| stdout := out; inbox := inbox w; outbox := outbox w |}.
Definition set_inbox (evs : list event) (w : world) : world :=
  {| stdout := stdout w; inbox := evs; outbox := outbox w |}.
Definition send (to : option Endpoint) (e : Envelope) : M world unit :=
  modify (fun w => {| stdout := stdout w; inbox := inbox w;
                      outbox := outbox w ++ [(to, e)] |}).

(** A computation on [std::cout] run in the world. *)
Definition on_stdout {A} (c : M ostream A) : M world A :=
  zoom stdout set_stdout c.

(** The member functions of [Node] that [main] calls; the node is
    passed and returned. *)
Class NodeAPI (Node : Type) : Type := {
  Node_new : string -> bool -> M world Node;
  SrvAdvertise : Node -> string -> callback -> M world (Z * Node);
  SrvRequest : Node -> string -> string -> string ->
               M world (Z * string * Node);
  Spin : Node -> M world Node
}.

End disc_zmq.
Import disc_zmq.

(* ===================================================================== *)
(** ** replier.cc *)
(* ===================================================================== *)

Module replier.

(** [echo], lines 11-17 *)
Definition echo : callback := fun _topic _data _rep =>
  assert (negb (String.eqb _topic "")) ;;
  cout (endl +:+ "Callback [" +:+ _topic +:+ "][" +:+ _data +:+ "]" +:+ endl) ;;
  let _rep := _data in
  ret (0, _rep).

(** The [std::string] objects bound to options in [ReadArgs]. *)
Inductive string_ref : Type := ref_master | ref_topic.

(** The objects [ReadArgs] receives by reference. *)
Record refs : Type := {
  _verbose : bool;
  _selfCall : bool;
  _master : string;
  _topic : string
}.

Definition set_verbose (b : bool) (r : refs) : refs :=
  {| _verbose := b; _selfCall := _selfCall r;
     _master := _master r; _topic := _topic r |}.
Definition set_selfCall (b : bool) (r : refs) : refs :=
  {| _verbose := _verbose r; _selfCall := b;
     _master := _master r; _topic := _topic r |}.
Definition set_master (s : string) (r : refs) : refs :=
  {| _verbose := _verbose r; _selfCall := _selfCall r;
     _master := s; _topic := _topic r |}.
Definition set_topic (s : string) (r : refs) : refs :=
  {| _verbose := _verbose r; _selfCall := _selfCall r;
     _master := _master r; _topic := s |}.

Definition assign (x : string_ref) (s : string) (r : refs) : refs :=
  match x with
  | ref_master => set_master s r
  | ref_topic => set_topic s r
  end.

Section with_boost.
Context {boost : po.library string_ref}.

(** [PrintUsage], lines 21-27 *)
Definition PrintUsage (_options : po.options_description string_ref)
  : M ostream unit :=
  cout ("Usage: replier [options] <topic>" +:+ endl
        +:+ "Positional arguments:" +:+ endl
        +:+ "  <topic>               Topic to advertise" +:+ endl
        +:+ po.stream _options +:+ endl).

(** lines 35-41 *)
Definition visibleDesc : po.options_description string_ref :=
  {| po.m_caption := "Options";
     po.m_options :=
       [ po.flag "help,h" "Produce help message";
         po.flag "verbose,v" "Enable verbose mode";
         po.flag "self-call,s" "Self-execute the advertised service call";
         po.valued "master,m" (po.typed_value (Some ref_master) (Some ""))
           "Set the master endpoint" ] |}.

(** lines 44-46 *)
Definition hiddenDesc : po.options_description string_ref :=
  {| po.m_caption := "Hidden options";
     po.m_options :=
       [ po.valued "topic" (po.typed_value (Some ref_topic) None)
           "Topic to publish" ] |}.

(** lines 49-50 *)
Definition desc : po.options_description string_ref :=
  po.add (po.add {| po.m_caption := "Options"; po.m_options := [] |}
            visibleDesc) hiddenDesc.

(** lines 53-54 *)
Definition positionalDesc : po.positional_options_description :=
  [("topic", 1%nat)].

Definition raise {S A} (r : po_error + A) : M S A :=
  match r with inl e => throw_exception e | inr a => ret a end.

(** [ReadArgs], lines 31-88. [argv] has [argc] elements. The result
    carries the return value and the referenced objects on exit. *)
Definition ReadArgs (argv : list string) (r : refs)
  : M ostream (Z * refs) :=
  let vm := po.empty_variables_map in
  let* parsed :=
    try_catch_boost
      (let* options := raise (po.run desc positionalDesc argv) in
       let* vm := raise (po.store desc options vm) in
       let r := po.notify assign desc vm r in
       ret (inr (vm, r)))
      (fun _e =>
         PrintUsage visibleDesc ;;
         ret (inl (-1))) in
  match parsed with
  | inl code => ret (code, r)
  | inr (vm, r) =>
      if (0 <? po.count vm "help")%nat || negb (0 <? po.count vm "topic")%nat
      then
        PrintUsage visibleDesc ;;
        ret (-1, r)
      else
        let r := set_verbose false r in
        let r := if (0 <? po.count vm "verbose")%nat
                 then set_verbose true r else r in
        let* r :=
          if (0 <? po.count vm "master")%nat
          then let* s := raise (po.as_string vm "master") in
               ret (set_master s r)
          else ret r in
        let r := set_selfCall false r in
        let r := if (0 <? po.count vm "self-call")%nat
                 then set_selfCall true r else r in
        ret (0, r)
  end.

End with_boost.

(** The calls [main] makes on the node, in order. *)
Inductive node_call : Type :=
| call_Node (master : string) (verbose : bool)
| call_SrvAdvertise (topic : string) (cb : callback)
| call_SrvRequest (topic data response : string)
| call_Spin.

(** The running program: its surroundings, and the calls made on the
    node so far (kept for the statements about [main]; the program does
    not read it). *)
Record process : Type := {
  env : world;
  calls : list node_call
}.

Definition in_env {A} (c : M world A) : M process A :=
  zoom env (fun w p => {| env := w; calls := calls p |}) c.

Definition call {A} (c : node_call) (method : M world A) : M process A :=
  modify (fun p => {| env := env p; calls := calls p ++ [c] |}) ;;
  in_env method.

Definition print (text : string) : M process unit :=
  in_env (on_stdout (cout text)).

Section with_node.
Context {boost : po.library string_ref}.
Context {Node : Type} {node_api : NodeAPI Node}.

(** [main], lines 91-123. [verbose] and [selfCall] are declared
    without an initial value: [indeterminate] stands for what they
    hold before [ReadArgs] is called. *)
Definition main (argv : list string) (indeterminate : bool * bool)
  : M process Z :=
  let master := "" in
  let topic := "" in
  let data := "" in
  let response := "" in
  let* (code, r) :=
    in_env (on_stdout
      (ReadArgs argv {| _verbose := fst indeterminate;
                        _selfCall := snd indeterminate;
                        _master := master; _topic := topic |})) in
  let verbose := _verbose r in
  let selfCall := _selfCall r in
  let master := _master r in
  let topic := _topic r in
  if negb (code =? 0) then ret (-1)
  else
    let* node := call (call_Node master verbose) (Node_new master verbose) in
    let* (rc, node) :=
      call (call_SrvAdvertise topic echo) (SrvAdvertise node topic echo) in
    (if negb (rc =? 0)
     then print ("srv_dvertise did not work" +:+ endl)
     else ret tt) ;;
    let* node :=
      if selfCall
      then
        let data := "" in
        let* (rc, response, node) :=
          call (call_SrvRequest topic data response)
               (SrvRequest node topic data response) in
        (if rc =? 0
         then print ("Response: " +:+ response +:+ endl)
         else print ("srv_request did not work" +:+ endl)) ;;
        ret node
      else ret node in
    let* node := call call_Spin (Spin node) in
    ret 0.

End with_node.

End replier.
Import replier.

(* ===================================================================== *)
(** ** The node *)
(* ===================================================================== *)

Module node.

(** Modelled from the spec: the class [Node] of [disc_zmq.hh], which is
    not among the sources. The registry of local services and of remote
    providers, the caller and the provider side of a request, the
    discovery tick and the event loop follow sections 3 and 4 of the
    specification. Messages are exchanged decoded (no wire codec), a
    send does not fail, and the node does no logging. *)

Inductive error : Type :=
| AlreadyAdvertisedLocally
| NotFound
| NoProvider
| Timeout
| TransportError
| ApplicationError.

(** Modelled from the spec: what the specification leaves to the
    implementation: the endpoint of the node, the announcement interval
    and the time a request waits, in polling intervals, and the non-zero
    status code of every error. *)
Class settings : Type := {
  self : Endpoint;
  announce_interval : N;
  request_timeout : N;
  code : error -> Z;
  code_nonzero : forall e, code e <> 0
}.

(** Modelled from the spec: a remote provider of a name (the name is
    the key of the table). *)
Record RemoteProvider : Type := {
  endpoint : Endpoint;
  lastSeen : N
}.

(** Modelled from the spec: how a pending request ended. *)
Inductive resolution : Type :=
| Answered (status : Z) (payload : string)
| TimedOut.

(** Modelled from the spec: a request that waits for its response (the
    correlation id is the key of the table). *)
Record PendingRequest : Type := {
  target : Endpoint;
  slot : option resolution;
  deadline : N
}.

(** Modelled from the spec: the state of a node. *)
Record Node : Type := {
  master : string;
  verbose : bool;
  local : gmap string callback;
  remote : gmap string (list RemoteProvider);
  pending : gmap N PendingRequest;
  next_id : N;
  now : N;
  last_announce : N
}.

(** Modelled from the spec: assignments to the members of a node. *)
Definition set_local (l : gmap string callback) (n : Node) : Node :=
  {| master := master n; verbose := verbose n; local := l;
     remote := remote n; pending := pending n; next_id := next_id n;
     now := now n; last_announce := last_announce n |}.
Definition set_remote (r : gmap string (list RemoteProvider)) (n : Node)
  : Node :=
  {| master := master n; verbose := verbose n; local := local n;
     remote := r; pending := pending n; next_id := next_id n;
     now := now n; last_announce := last_announce n |}.
Definition set_pending (p : gmap N PendingRequest) (n : Node) : Node :=
  {| master := master n; verbose := verbose n; local := local n;
     remote := remote n; pending := p; next_id := next_id n;
     now := now n; last_announce := last_announce n |}.
Definition set_clock (t announced : N) (n : Node) : Node :=
  {| master := master n; verbose := verbose n; local := local n;
     remote := remote n; pending := pending n; next_id := next_id n;
     now := t; last_announce := announced |}.
Definition fresh_id (n : Node) : Node :=
  {| master := master n; verbose := verbose n; local := local n;
     remote := remote n; pending := pending n;
     next_id := (next_id n + 1) mod 2 ^ 64;
     now := now n; last_announce := last_announce n |}.

Section with_settings.
Context {cfg : settings}.

(** Modelled from the spec: the lease of a remote provider is three
    announcement intervals. *)
Definition lease : N := (3 * announce_interval)%N.

(** Modelled from the spec: the constructor, with the master endpoint
    and the verbosity flag. Both tables are empty. *)
Definition new (master_endpoint : string) (verbosity : bool)
  : M world Node :=
  ret {| master := master_endpoint; verbose := verbosity;
         local := ∅; remote := ∅; pending := ∅; next_id := 0%N;
         now := 0%N; last_announce := 0%N |}.

(** Modelled from the spec: [Advertise] registers the callback under
    the name, replacing the one that is there. *)
Definition Advertise (n : Node) (topic : string) (cb : callback)
  : M world (Z * Node) :=
  let rc := match local n !! topic with
            | Some _ => code AlreadyAdvertisedLocally
            | None => 0
            end in
  ret (rc, set_local (<[topic := cb]> (local n)) n).

(** Modelled from the spec: [Unadvertise] *)
Definition Unadvertise (n : Node) (topic : string) : M world (Z * Node) :=
  match local n !! topic with
  | Some _ => ret (0, set_local (delete topic (local n)) n)
  | None => ret (code NotFound, n)
  end.

(** Modelled from the spec: the callback is called with the name and
    the payload; an exception it throws does not leave the node, it
    becomes the status of an application error. A failed assertion is no
    exception: [abort()] ends the process, here as anywhere. *)
Definition invoke (cb : callback) (topic data rep : string)
  : M world (Z * string) :=
  fun w =>
    match on_stdout (cb topic data rep) w with
    | (Throws _, w') => (Returns (code ApplicationError, rep), w')
    | r => r
    end.

(** Modelled from the spec: announcements go to the master endpoint
    if there is one and are broadcast otherwise. *)
Definition announce_to (n : Node) : option Endpoint :=
  if String.eqb (master n) "" then None else Some (master n).

(** Modelled from the spec: a message of this node. *)
Definition envelope (k : Kind) (topic : string) (id : N)
    (data : string) (st : Z) : Envelope :=
  {| kind := k; name := topic; correlationId := id;
     senderEndpoint := self; payload := data; status := st |}.

(** Modelled from the spec: [OnAnnounce] enters or refreshes the
    provider. *)
Definition OnAnnounce (e : Envelope) (n : Node) : Node :=
  let others :=
    List.filter
      (fun p => negb (String.eqb (endpoint p) (senderEndpoint e)))
      (default [] (remote n !! name e)) in
  set_remote
    (<[name e := {| endpoint := senderEndpoint e; lastSeen := now n |}
                 :: others]> (remote n)) n.

(** Modelled from the spec: [OnRequest] answers a request for a name
    that is not advertised here with "no such service", and otherwise
    calls the callback and sends its reply and status back. *)
Definition OnRequest (e : Envelope) (n : Node) : M world Node :=
  match local n !! name e with
  | None =>
      send (Some (senderEndpoint e))
           (envelope Response (name e) (correlationId e) ""
                     (code NoProvider)) ;;
      ret n
  | Some cb =>
      let* (st, rep) := invoke cb (name e) (payload e) "" in
      send (Some (senderEndpoint e))
           (envelope Response (name e) (correlationId e) rep st) ;;
      ret n
  end.

(** Modelled from the spec: a response resolves the pending request
    with its correlation id; without one it is dropped. *)
Definition OnResponse (e : Envelope) (n : Node) : Node :=
  match pending n !! correlationId e with
  | Some {| target := t; slot := None; deadline := d |} =>
      set_pending
        (<[correlationId e :=
             {| target := t;
                slot := Some (Answered (status e) (payload e));
                deadline := d |}]> (pending n)) n
  | _ => n
  end.

(** Modelled from the spec: the discovery tick announces every local
    service and evicts the providers whose lease has run out. *)
Definition announce_all (n : Node) : M world unit :=
  foldr (fun topic rest =>
           send (announce_to n) (envelope Announce topic 0%N "" 0) ;; rest)
        (ret tt) (fst <$> map_to_list (local n)).

(** Modelled from the spec: the sweep of the remote providers *)
Definition evict (t : N) (n : Node) : Node :=
  set_remote
    (List.filter (fun p => (t - lastSeen p <=? lease)%N) <$> remote n) n.

(** Modelled from the spec: the deadline sweep *)
Definition expire (t : N) (p : PendingRequest) : PendingRequest :=
  match slot p with
  | None =>
      if (deadline p <=? t)%N
      then {| target := target p; slot := Some TimedOut;
              deadline := deadline p |}
      else p
  | Some _ => p
  end.

(** Modelled from the spec: one polling interval has passed. *)
Definition OnTick (n : Node) : M world Node :=
  let t := (now n + 1)%N in
  let* n :=
    if (announce_interval <=? t - last_announce n)%N
    then announce_all n ;; ret (evict t (set_clock t t n))
    else ret (set_clock t (last_announce n) n) in
  ret (set_pending (expire t <$> pending n) n).

(** Modelled from the spec: the dispatch of one event by the loop. *)
Definition dispatch (ev : event) (n : Node) : M world Node :=
  match ev with
  | Inbound e =>
      match kind e with
      | Announce => ret (OnAnnounce e n)
      | Request => OnRequest e n
      | Response => ret (OnResponse e n)
      end
  | Tick => OnTick n
  | StopSignal => ret n
  end.

(** Modelled from the spec: the provider seen last *)
Fixpoint most_recent (ps : list RemoteProvider) : option RemoteProvider :=
  match ps with
  | [] => None
  | p :: rest =>
      match most_recent rest with
      | Some q => if (lastSeen p <? lastSeen q)%N then Some q else Some p
      | None => Some p
      end
  end.

(** Modelled from the spec: the wait of a request for its response.
    [evs] are the events to come. The loop is driven from here until
    the request is resolved; the stop signal ends the wait with a
    transport error and stays raised. *)
Fixpoint await (id : N) (response : string) (evs : list event) (n : Node)
  : M world (Z * string * Node) :=
  match pending n !! id ≫= slot with
  | Some (Answered st data) =>
      ret (st, data, set_pending (delete id (pending n)) n)
  | Some TimedOut =>
      ret (code Timeout, response, set_pending (delete id (pending n)) n)
  | None =>
      match evs with
      | [] => fun w => (Hangs, w)
      | StopSignal :: _ =>
          ret (code TransportError, response,
               set_pending (delete id (pending n)) n)
      | ev :: rest =>
          modify (set_inbox rest) ;;
          let* n := dispatch ev n in
          await id response rest n
      end
  end.

(** Modelled from the spec: [Request]. A name advertised by this node
    is served by its callback, in the process; otherwise the request
    goes to the provider seen last. *)
Definition Request_ (n : Node) (topic data response : string)
  : M world (Z * string * Node) :=
  match local n !! topic with
  | Some cb =>
      let* (st, rep) := invoke cb topic data response in
      ret (st, rep, n)
  | None =>
      match most_recent (default [] (remote n !! topic)) with
      | None => ret (code NoProvider, response, n)
      | Some p =>
          let id := next_id n in
          let n :=
            fresh_id
              (set_pending
                 (<[id := {| target := endpoint p; slot := None;
                             deadline := (now n + request_timeout)%N |}]>
                    (pending n)) n) in
          send (Some (endpoint p)) (envelope Request topic id data 0) ;;
          let* w := get in
          await id response (inbox w) n
      end
  end.

(** Modelled from the spec: [Spin] handles the events one after the
    other and returns at the stop signal; when the events run out
    without one it waits for ever. *)
Fixpoint spin (evs : list event) (n : Node) : M world Node :=
  match evs with
  | [] => fun w => (Hangs, w)
  | StopSignal :: rest =>
      modify (set_inbox rest) ;;
      ret n
  | ev :: rest =>
      modify (set_inbox rest) ;;
      let* n := dispatch ev n in
      spin rest n
  end.

(** Modelled from the spec: [Spin] on the events to come *)
Definition Spin_ (n : Node) : M world Node :=
  let* w := get in
  spin (inbox w) n.

(** Modelled from the spec: the member functions [main] calls. *)
#[export] Instance node_api : NodeAPI Node := {|
  Node_new := new;
  SrvAdvertise := Advertise;
  SrvRequest := Request_;
  Spin := Spin_
|}.

End with_settings.

End node.

Import node.

(* ===================================================================== *)
(** ** The vocabulary of the statements *)
(* ===================================================================== *)

Section parsing_vocabulary.
Context {boost : po.library string_ref}.

(** The text [PrintUsage(visibleDesc)] writes. *)
Definition usage : string :=
  "Usage: replier [options] <topic>" +:+ endl
  +:+ "Positional arguments:" +:+ endl
  +:+ "  <topic>               Topic to advertise" +:+ endl
  +:+ po.stream visibleDesc +:+ endl.

(** The option [key] is among the parsed options. *)
Definition given (key : string) (options : list po.basic_option) : bool :=
  existsb (fun o => String.eqb (po.string_key o) key
                    && negb (po.unregistered o)) options.

(** [store] passes over [o] as far as the name [k] is concerned. *)
Definition skipped (k : string) (o : po.basic_option) : Prop :=
  po.string_key o <> k \/ po.unregistered o = true.

(** The try block of [ReadArgs] up to [notify]: the variables map of the
    command line, or the error the library raises. *)
Definition parse (argv : list string)
  : po_error + po.variables_map string_ref :=
  match po.run desc positionalDesc argv with
  | inl e => inl e
  | inr options => po.store desc options po.empty_variables_map
  end.

(** Lines 76-85 of [ReadArgs] on the variables map [vm]. *)
Definition accept (vm : po.variables_map string_ref) (r : refs) : refs :=
  let r := set_verbose (0 <? po.count vm "verbose")%nat r in
  let r := match po.m vm !! "master" with
           | Some x => set_master (po.v x) r
           | None => r
           end in
  set_selfCall (0 <? po.count vm "self-call")%nat r.

(** The entry [master] has in the map when it is not given. *)
Definition master_default : po.variable_value string_ref :=
  {| po.v := ""; po.m_defaulted := true;
     po.m_value_semantic := po.typed_value (Some ref_master) (Some "") |}.

(** The entry of [--verbose] in the map. *)
Definition verbose_value : po.variable_value string_ref :=
  {| po.v := ""; po.m_defaulted := false;
     po.m_value_semantic := po.untyped_value |}.

(** [o] is the flag [--verbose] (or [-v]) as the parser gives it. *)
Definition is_verbose_flag (o : po.basic_option) : Prop :=
  po.string_key o = "verbose" /\ po.value o = [] /\ po.unregistered o = false.

(** The command line is one [ReadArgs] turns down: parsing raises an
    error, [--help] is given, or the topic is missing. *)
Definition rejects (argv : list string) : Prop :=
  match po.run desc positionalDesc argv with
  | inl _ => True
  | inr options =>
      (exists e, po.store desc options po.empty_variables_map = inl e) \/
      given "help" options = true \/ given "topic" options = false
  end.

(** Two command lines, as the library reads them, that are the same but
    for the flag [--verbose]: both are refused by the parser, or the
    second has the options of the first and the flag among them. *)
Inductive same_but_verbose
  : po_error + list po.basic_option -> po_error + list po.basic_option -> Prop :=
| both_raise e1 e2 : same_but_verbose (inl e1) (inl e2)
| verbose_added pre post o :
    is_verbose_flag o ->
    given "verbose" (pre ++ post) = false ->
    same_but_verbose (inr (pre ++ post)) (inr (pre ++ o :: post)).

(** The second command line is the first with one more token, [-v] or
    [--verbose], at some place. *)
Definition with_the_verbose_token (argv1 argv2 : list string) : Prop :=
  exists pre post t,
    (t = "-v" \/ t = "--verbose") /\
    argv1 = pre ++ post /\ argv2 = pre ++ t :: post.

(** [ReadArgs] returns the same code and the same [_selfCall],
    [_master] and [_topic] on two command lines that differ in the
    token of the verbosity flag only. *)
Definition verbose_token_is_ignored : Prop :=
  forall argv1 argv2 r out code1 r1 out1 code2 r2 out2,
    with_the_verbose_token argv1 argv2 ->
    ReadArgs argv1 r out = (Returns (code1, r1), out1) ->
    ReadArgs argv2 r out = (Returns (code2, r2), out2) ->
    code1 = code2 /\ _selfCall r1 = _selfCall r2 /\
    _master r1 = _master r2 /\ _topic r1 = _topic r2.

End parsing_vocabulary.

Section main_vocabulary.
Context {Node : Type} {node_api : NodeAPI Node}.

(** What the variables of [main] hold when [ReadArgs] is called. *)
Definition initial (indeterminate : bool * bool) : refs :=
  {| _verbose := fst indeterminate; _selfCall := snd indeterminate;
     _master := ""; _topic := "" |}.

(** The world after one more output statement. *)
Definition say (text : string) (w : world) : world :=
  set_stdout (stdout w ++ [text]) w.

(** The texts of the output statements of [main] and of [echo]. *)
Definition advertise_failed : string := "srv_dvertise did not work" +:+ endl.
Definition request_failed : string := "srv_request did not work" +:+ endl.
Definition response_line (response : string) : string :=
  "Response: " +:+ response +:+ endl.
Definition callback_line (topic data : string) : string :=
  endl +:+ "Callback [" +:+ topic +:+ "][" +:+ data +:+ "]" +:+ endl.

(** The world after lines 105-106 and after lines 113-116 of [main]. *)
Definition after_advertise (rc : Z) (w : world) : world :=
  if rc =? 0 then w else say advertise_failed w.
Definition after_request (rc : Z) (response : string) (w : world) : world :=
  say (if rc =? 0 then response_line response else request_failed) w.

(** A call that does not return ends the caller the same way. *)
Definition ended {A B} (o : outcome A) : outcome B :=
  match o with
  | Returns _ => Hangs
  | Throws e => Throws e
  | Aborts => Aborts
  | Hangs => Hangs
  end.

(** [main] ends in a call on the node that does not return: [o] is how,
    [w] the world then, [made] the calls made. *)
Definition stopped_in {A} (o : outcome A) (w : world)
    (made : list node_call) (p : process) : outcome Z * process :=
  (ended o, {| env := w; calls := calls p ++ made |}).

(** Lines 120-122: [Spin] is entered with node [n] in world [w], after
    the calls [made]; [main] returns 0 when [Spin] returns. *)
Definition spins (n : Node) (w : world) (made : list node_call)
    (p : process) : outcome Z * process :=
  (omap (fun _ => 0) (fst (Spin n w)),
   {| env := snd (Spin n w); calls := calls p ++ made ++ [call_Spin] |}).

(** Lines 108-122: [main] from the self-call on, with node [n] in world
    [w], after the calls [made]. *)
Definition from_self_call (r : refs) (n : Node) (w : world)
    (made : list node_call) (p : process) : outcome Z * process :=
  if _selfCall r then
    let made := made ++ [call_SrvRequest (_topic r) "" ""] in
    match SrvRequest n (_topic r) "" "" w with
    | (Returns (rc, response, n'), w') =>
        spins n' (after_request rc response w') made p
    | (o, w') => stopped_in o w' made p
    end
  else spins n w made p.

(** The constructor, [SrvAdvertise] and, in self-call mode,
    [SrvRequest] return when [main] calls them, starting in world [w]. *)
Definition node_calls_return (r : refs) (w : world) : Prop :=
  exists n0 w0 rc n1 w1,
    Node_new (_master r) (_verbose r) w = (Returns n0, w0) /\
    SrvAdvertise n0 (_topic r) echo w0 = (Returns (rc, n1), w1) /\
    (_selfCall r = true ->
     returned (fst (SrvRequest n1 (_topic r) "" "" (after_advertise rc w1)))
     = true).

(** The calls of an accepted run that reaches [Spin]. *)
Definition calls_of_main (r : refs) : list node_call :=
  [call_Node (_master r) (_verbose r); call_SrvAdvertise (_topic r) echo]
  ++ (if _selfCall r then [call_SrvRequest (_topic r) "" ""] else [])
  ++ [call_Spin].

(** The call returns or never does: it neither throws nor aborts. *)
Definition returns_or_hangs {A} (o : outcome A) : Prop :=
  match o with
  | Returns _ | Hangs => True
  | Throws _ | Aborts => False
  end.

(** Lines 104-122: [main] from [SrvAdvertise] on, with the node [n]
    the constructor has returned, in world [w]. *)
Definition from_advertise (r : refs) (n : Node) (w : world) (p : process)
  : outcome Z * process :=
  let made := [call_Node (_master r) (_verbose r);
               call_SrvAdvertise (_topic r) echo] in
  match SrvAdvertise n (_topic r) echo w with
  | (Returns (rc, n'), w') => from_self_call r n' (after_advertise rc w') made p
  | (o, w') => stopped_in o w' made p
  end.

(** The node with another [SrvRequest]. *)
Definition with_SrvRequest
    (request : Node -> string -> string -> string ->
               M world (Z * string * Node))
  : NodeAPI Node :=
  {| Node_new := Node_new; SrvAdvertise := SrvAdvertise;
     SrvRequest := request; Spin := Spin |}.

End main_vocabulary.

(** Every local service of [n] has a name that is not empty and is
    served by [echo]. *)
Definition serves_echo (n : Node) : Prop :=
  forall k cb, local n !! k = Some cb -> k <> "" /\ cb = echo.

(** [text] is a line written by [echo]. *)
Definition is_callback_line (text : string) : Prop :=
  exists topic data, text = callback_line topic data.

(** The node [main] has after [SrvAdvertise]. *)
Definition advertised (r : refs) : Node :=
  {| master := _master r; verbose := _verbose r;
     local := {[ _topic r := echo ]}; remote := ∅; pending := ∅;
     next_id := 0%N; now := 0%N; last_announce := 0%N |}.

(** The value a name has been given in [xm], as [store] looks it up:
    none when the entry is a default. *)
Definition stored {ref : Type} (xm : gmap string (po.variable_value ref))
    (k : string) : option string :=
  match xm !! k with
  | Some x => if po.m_defaulted x then None else Some (po.v x)
  | None => None
  end.

(** Two results of [store_options] that agree: both are errors, or
    both are the same map. *)
Definition agree {E A} (a b : E + A) : Prop :=
  match a, b with
  | inl _, inl _ => True
  | inr x, inr y => x = y
  | _, _ => False
  end.

(* ===================================================================== *)
(** ** Examples to run the program on *)
(* ===================================================================== *)

(** Modelled from the spec: settings of a node for the examples; the
    specification fixes no value of them. *)
Definition example_settings : settings :=
  {| self := "tcp://10.0.0.1:7000"; announce_interval := 2%N;
     request_timeout := 3%N; code := fun _ => -1;
     code_nonzero := fun _ => ltac:(discriminate) |}.

(** A node without a transport: nothing can be advertised on it, a
    request is answered with its payload, and [Spin] returns at once. *)
Definition offline_node : NodeAPI unit :=
  {| Node_new := fun _ _ => ret tt;
     SrvAdvertise := fun _ _ _ => ret (-1, tt);
     SrvRequest := fun _ _ data _ => ret (0, data, tt);
     Spin := fun _ => ret tt |}.

(** Nothing ever reaches the process. *)
Definition quiet : world := {| stdout := []; inbox := []; outbox := [] |}.

(** A request of a peer for [topic]. *)
Definition a_request (topic data : string) : Envelope :=
  {| kind := Request; name := topic; correlationId := 7%N;
     senderEndpoint := "tcp://10.0.0.2:7000"; payload := data; status := 0 |}.

(** A peer asks for "echo" with payload "hello", time passes, the
    process is told to stop. *)
Definition busy : world :=
  {| stdout := [];
     inbox := [Inbound (a_request "echo" "hello"); Tick; Tick; StopSignal; Tick];
     outbox := [] |}.

(** The process at its start. *)
Definition fresh (w : world) : process := {| env := w; calls := [] |}.

(** The program on the reference parser and the modelled node. *)
Definition replier_main (argv : list string) (w : world)
  : outcome Z * process :=
  main (boost := po.boost_library)
       (node_api := node_api (cfg := example_settings))
       argv (false, false) (fresh w).

(** [ReadArgs] on the reference parser, as [main] calls it. *)
Definition replier_ReadArgs (argv : list string)
  : outcome (Z * refs) * ostream :=
  ReadArgs (boost := po.boost_library) argv (initial (false, false)) [].

(** The program on the reference parser and the node without transport. *)
Definition replier_offline (argv : list string) (w : world)
  : outcome Z * process :=
  main (boost := po.boost_library) (node_api := offline_node)
       argv (false, false) (fresh w).

(** What [ReadArgs] leaves in its arguments when it accepts. *)
Definition accepted (selfCall : bool) (master_endpoint topic : string) : refs :=
  {| _verbose := false; _selfCall := selfCall; _master := master_endpoint;
     _topic := topic |}.

(** A node whose peers never answer: a request fails with -1 and leaves
    the response as it was. *)
Definition deaf_node : NodeAPI unit :=
  {| Node_new := fun _ _ => ret tt;
     SrvAdvertise := fun _ _ _ => ret (0, tt);
     SrvRequest := fun _ _ _ response => ret (-1, response, tt);
     Spin := fun _ => ret tt |}.

(** A node whose [SrvAdvertise] throws. *)
Definition broken_node : NodeAPI unit :=
  {| Node_new := fun _ _ => ret tt;
     SrvAdvertise := fun _ _ _ => throw (std_exception "Address already in use");
     SrvRequest := fun _ _ data _ => ret (0, data, tt);
     Spin := fun _ => ret tt |}.

(** A node that writes every call it gets to the output, with the
    endpoint or the topic it is given; a request is answered with its
    payload. *)
Definition tracing_node : NodeAPI (string * bool) :=
  {| Node_new := fun master verbose =>
       on_stdout (cout ("Node(" +:+ master +:+ ")")) ;; ret (master, verbose);
     SrvAdvertise := fun n topic _ =>
       on_stdout (cout ("SrvAdvertise(" +:+ topic +:+ ")")) ;; ret (0, n);
     SrvRequest := fun n topic data _ =>
       on_stdout (cout ("SrvRequest(" +:+ topic +:+ ", " +:+ data +:+ ")")) ;;
       ret (0, data, n);
     Spin := fun n => on_stdout (cout "Spin()") ;; ret n |}.

(** The program on the reference parser and the tracing node. *)
Definition replier_tracing (argv : list string) (w : world)
  : outcome Z * process :=
  main (boost := po.boost_library) (node_api := tracing_node)
       argv (false, false) (fresh w).

(** What the tracing node and [main] have written and the calls made
    when a run on a quiet world has returned 0. *)
Definition traced (lines : list string) (made : list node_call)
  : outcome Z * process :=
  (Returns 0,
   {| env := {| stdout := lines; inbox := []; outbox := [] |};
      calls := made |}).

(** The parsed option of a flag and of an option with a value. *)
Definition a_flag (name : string) : po.basic_option :=
  {| po.string_key := name; po.position_key := -1; po.value := [];
     po.unregistered := false |}.
Definition an_option (name value : string) (position : Z) : po.basic_option :=
  {| po.string_key := name; po.position_key := position; po.value := [value];
     po.unregistered := false |}.

(* ===================================================================== *)
(** ** Lemmas *)
(* ===================================================================== *)

Section ReadArgs_facts.
Context {boost : po.library string_ref}.

Lemma ReadArgs_raised argv r out e :
  parse argv = inl e ->
  ReadArgs argv r out = (Returns (-1, r), out ++ [usage]).
Proof.
  unfold parse, ReadArgs, try_catch_boost, bind, raise.
  destruct (po.run desc positionalDesc argv) as [e1|options]; simpl.
  - intros _. reflexivity.
  - intros ->. reflexivity.
Qed.

Lemma ReadArgs_parsed argv r out vm :
  parse argv = inr vm ->
  ReadArgs argv r out =
    let r1 := po.notify assign desc vm r in
    if (0 <? po.count vm "help")%nat || negb (0 <? po.count vm "topic")%nat
    then (Returns (-1, r1), out ++ [usage])
    else (Returns (0, accept vm r1), out).
Proof.
  unfold parse, ReadArgs, try_catch_boost, bind, raise.
  destruct (po.run desc positionalDesc argv) as [e1|options]; simpl; [done|].
  intros ->. simpl.
  destruct ((0 <? po.count vm "help")%nat || negb (0 <? po.count vm "topic")%nat);
    [reflexivity|].
  unfold accept, po.count, po.as_string.
  destruct (po.m vm !! "master"); simpl.
  - destruct (po.m vm !! "verbose"), (po.m vm !! "self-call"); reflexivity.
  - destruct (po.m vm !! "verbose"), (po.m vm !! "self-call"); reflexivity.
Qed.
End ReadArgs_facts.

Section store_facts.
Context {ref : Type}.
Implicit Types (desc : po.options_description ref)
               (xm : gmap string (po.variable_value ref))
               (o : po.basic_option) (options : list po.basic_option).

Lemma store_options_app desc final xm l1 l2 :
  po.store_options desc final xm (l1 ++ l2) =
    match po.store_options desc final xm l1 with
    | inl e => inl e
    | inr xm' => po.store_options desc final xm' l2
    end.
Proof.
  revert xm. induction l1 as [|o l1 IH]; intros xm; simpl; [done|].
  destruct (po.store_option desc final xm o); [done|]. apply IH.
Qed.

Lemma store_option_other desc final xm o xm' k :
  po.store_option desc final xm o = inr xm' ->
  skipped k o -> xm' !! k = xm !! k.
Proof.
  unfold po.store_option, skipped; cbv zeta.
  destruct (String.eqb_spec (po.string_key o) "") as [?|Hne]; [by intros [= ->]|].
  destruct (po.unregistered o) eqn:Hu; [by intros [= ->]|].
  case_bool_decide; [by intros [= ->]|].
  destruct (po.find desc (po.string_key o) false) as [?|d]; [done|].
  destruct (po.xparse _ _ _ _) as [?|s]; [done|].
  intros [= <-] [Hk|?]; [|done].
  by rewrite lookup_insert_ne.
Qed.

Lemma given_cons k o options :
  given k (o :: options) = false <-> skipped k o ∧ given k options = false.
Proof.
  unfold given, skipped. simpl. rewrite orb_false_iff, andb_false_iff.
  rewrite String.eqb_neq, negb_false_iff. tauto.
Qed.

Lemma store_options_other desc final xm options xm' k :
  po.store_options desc final xm options = inr xm' ->
  given k options = false -> xm' !! k = xm !! k.
Proof.
  revert xm. induction options as [|o options IH]; intros xm; simpl.
  - by intros [= ->].
  - destruct (po.store_option desc final xm o) as [?|xm1] eqn:H1; [done|].
    intros H2 [Ho Hrest]%given_cons.
    rewrite (IH _ H2 Hrest). eapply store_option_other; eauto.
Qed.

(** A value that was given is not given again. *)
Lemma store_option_kept desc final xm o xm' k x :
  po.store_option desc final xm o = inr xm' ->
  xm !! k = Some x -> po.m_defaulted x = false -> xm' !! k = Some x.
Proof.
  unfold po.store_option; cbv zeta. intros H Hk Hd.
  destruct (String.eqb_spec (po.string_key o) "") as [?|Hne]; [by injection H as <-|].
  destruct (po.unregistered o) eqn:Hu; [by injection H as <-|].
  case_bool_decide; [by injection H as <-|].
  destruct (po.find desc (po.string_key o) false) as [?|d]; [done|].
  destruct (decide (po.string_key o = k)) as [Heq|Hne'].
  - rewrite Heq, Hk, Hd in H.
    destruct (po.semantic d); simpl in H; done.
  - destruct (po.xparse _ _ _ _) as [?|s]; [done|].
    injection H as <-. by rewrite lookup_insert_ne.
Qed.

Lemma store_options_kept desc final xm options xm' k x :
  po.store_options desc final xm options = inr xm' ->
  xm !! k = Some x -> po.m_defaulted x = false -> xm' !! k = Some x.
Proof.
  revert xm. induction options as [|o options IH]; intros xm; simpl.
  - by intros [= ->].
  - destruct (po.store_option desc final xm o) as [?|xm1] eqn:H1; [done|].
    intros H2 Hk Hd. eapply IH; eauto. eapply store_option_kept; eauto.
Qed.

(** The entry of an option that has been stored. *)
Lemma store_option_entry desc xm o xm' :
  po.store_option desc ∅ xm o = inr xm' ->
  po.string_key o ≠ "" -> po.unregistered o = false ->
  exists d s,
    po.find desc (po.string_key o) false = inr d /\
    po.xparse (po.semantic d) (po.string_key o) None (po.value o) = inr s /\
    xm' !! po.string_key o =
      Some {| po.v := s; po.m_defaulted := false;
              po.m_value_semantic := po.semantic d |}.
Proof.
  unfold po.store_option; cbv zeta. intros H Hne Hu.
  destruct (String.eqb_spec (po.string_key o) "") as [?|_]; [done|].
  rewrite Hu in H. rewrite bool_decide_eq_false_2 in H by set_solver.
  destruct (po.find desc (po.string_key o) false) as [?|d]; [done|].
  destruct (po.xparse _ _ _ _) as [?|s] eqn:Hp; [done|].
  injection H as <-. exists d, s. split; [done|]. split.
  - destruct (po.semantic d), (xm !! po.string_key o) as [x|];
      simpl in *; try destruct (po.m_defaulted x); simpl in *; done.
  - by rewrite lookup_insert_eq.
Qed.

Lemma store_options_entry desc xm options xm' o :
  po.store_options desc ∅ xm options = inr xm' ->
  o ∈ options -> po.string_key o ≠ "" -> po.unregistered o = false ->
  exists d s,
    po.find desc (po.string_key o) false = inr d /\
    po.xparse (po.semantic d) (po.string_key o) None (po.value o) = inr s /\
    xm' !! po.string_key o =
      Some {| po.v := s; po.m_defaulted := false;
              po.m_value_semantic := po.semantic d |}.
Proof.
  revert xm. induction options as [|o' options IH]; intros xm; simpl.
  - intros _ ?%elem_of_nil. done.
  - destruct (po.store_option desc ∅ xm o') as [?|xm1] eqn:H1; [done|].
    intros H2 [->|Hin]%elem_of_cons Hne Hu.
    + destruct (store_option_entry _ _ _ _ H1 Hne Hu) as (d & s & ? & ? & Hx).
      exists d, s. split_and!; [done..|].
      eapply store_options_kept; eauto.
    + eapply IH; eauto.
Qed.

Lemma given_true k options :
  given k options = true <->
  exists o, o ∈ options /\ po.string_key o = k /\ po.unregistered o = false.
Proof.
  unfold given. rewrite existsb_exists. split.
  - intros (o & Hin & [?%String.eqb_eq ?%negb_true_iff]%andb_true_iff).
    exists o. by rewrite list_elem_of_In.
  - intros (o & Hin & ? & ?). exists o. rewrite <- list_elem_of_In.
    split; [done|]. apply andb_true_iff. by rewrite String.eqb_eq, negb_true_iff.
Qed.

(** After a successful [store_options] the map has an entry for [k]
    exactly if it had one before or [k] was given. *)
Lemma store_options_is_Some desc xm options xm' k :
  po.store_options desc ∅ xm options = inr xm' -> k ≠ "" ->
  is_Some (xm' !! k) <-> is_Some (xm !! k) \/ given k options = true.
Proof.
  intros H Hk. destruct (given k options) eqn:Hg.
  - split; [auto|intros _].
    apply given_true in Hg as (o & Hin & <- & Hu).
    destruct (store_options_entry _ _ _ _ _ H Hin Hk Hu) as (d & s & _ & _ & ->).
    eauto.
  - rewrite (store_options_other _ _ _ _ _ _ H Hg). split; [auto|]. by intros [?|?].
Qed.
End store_facts.

Section parse_facts.
Context {boost : po.library string_ref}.
Implicit Types (xm : gmap string (po.variable_value string_ref))
               (vm : po.variables_map string_ref)
               (options : list po.basic_option).

Lemma defaults_run xm :
  foldl po.apply_default xm (po.m_options desc) =
    match xm !! "master" with
    | None => <["master" := master_default]> xm
    | Some _ => xm
    end.
Proof.
  unfold desc, po.add. simpl. unfold po.apply_default. simpl.
  change (po.key (po.valued "master,m" _ _)) with "master".
  destruct (xm !! "master"); reflexivity.
Qed.

Lemma defaults_lookup xm k :
  k ≠ "master" ->
  foldl po.apply_default xm (po.m_options desc) !! k = xm !! k.
Proof.
  intros Hk. rewrite defaults_run.
  destruct (xm !! "master"); [done|]. by rewrite lookup_insert_ne.
Qed.

Lemma defaults_master xm :
  is_Some (foldl po.apply_default xm (po.m_options desc) !! "master").
Proof.
  rewrite defaults_run.
  destruct (xm !! "master") eqn:H; [by rewrite H|].
  rewrite lookup_insert_eq. eauto.
Qed.

Lemma parse_run argv vm :
  parse argv = inr vm ->
  exists options xm,
    po.run desc positionalDesc argv = inr options /\
    po.store_options desc ∅ ∅ options = inr xm /\
    po.m vm = foldl po.apply_default xm (po.m_options desc).
Proof.
  unfold parse, po.store. simpl.
  destruct (po.run desc positionalDesc argv) as [?|options]; [done|].
  destruct (po.store_options desc ∅ ∅ options) as [?|xm] eqn:H; [done|].
  intros [= <-]. eauto.
Qed.

Lemma count_given argv options vm k :
  po.run desc positionalDesc argv = inr options -> parse argv = inr vm ->
  k ≠ "" -> k ≠ "master" ->
  (0 <? po.count vm k)%nat = given k options.
Proof.
  intros Hrun (options' & xm & Hrun' & Hst & Hm)%parse_run Hk Hk'.
  rewrite Hrun in Hrun'. injection Hrun' as <-.
  unfold po.count. rewrite Hm, defaults_lookup by done.
  pose proof (store_options_is_Some _ _ _ _ k Hst Hk) as Hiff.
  rewrite lookup_empty in Hiff.
  destruct (given k options).
  - destruct (proj2 Hiff) as [x ->]; [auto|done].
  - destruct (xm !! k) eqn:Hx; [|done].
    destruct (proj1 Hiff) as [[? [=]]|?]; [eauto|done].
Qed.

Lemma count_master argv vm :
  parse argv = inr vm -> is_Some (po.m vm !! "master").
Proof.
  intros (options & xm & _ & _ & ->)%parse_run. apply defaults_master.
Qed.
End parse_facts.

Section verbose_facts.
Context {boost : po.library string_ref}.
Implicit Types (xm : gmap string (po.variable_value string_ref))
               (vm : po.variables_map string_ref)
               (o : po.basic_option) (options : list po.basic_option).

Lemma store_option_insert (d : po.options_description string_ref) xm o k x :
  skipped k o ->
  po.store_option d ∅ (<[k:=x]> xm) o =
    match po.store_option d ∅ xm o with
    | inl e => inl e
    | inr xm' => inr (<[k:=x]> xm')
    end.
Proof.
  unfold po.store_option, skipped; cbv zeta. intros Hs.
  destruct (String.eqb_spec (po.string_key o) "") as [?|Hne]; [done|].
  destruct (po.unregistered o) eqn:Hu; [done|].
  case_bool_decide; [done|].
  destruct Hs as [Hk|?]; [|done].
  destruct (po.find d (po.string_key o) false) as [?|d']; [done|].
  rewrite lookup_insert_ne by done.
  destruct (po.xparse _ _ _ _) as [?|s]; [done|].
  by rewrite insert_insert_ne.
Qed.

Lemma store_options_insert (d : po.options_description string_ref)
    xm options k x :
  given k options = false ->
  po.store_options d ∅ (<[k:=x]> xm) options =
    match po.store_options d ∅ xm options with
    | inl e => inl e
    | inr xm' => inr (<[k:=x]> xm')
    end.
Proof.
  revert xm. induction options as [|o options IH]; intros xm; simpl; [done|].
  intros [Ho Hrest]%given_cons.
  rewrite store_option_insert by done.
  destruct (po.store_option d ∅ xm o); [done|]. by apply IH.
Qed.

Lemma store_verbose_flag xm o :
  is_verbose_flag o -> xm !! "verbose" = None ->
  po.store_option desc ∅ xm o = inr (<["verbose" := verbose_value]> xm).
Proof.
  intros (Hk & Hv & Hu) Hx. unfold po.store_option; cbv zeta.
  rewrite Hk, Hv, Hu, Hx. reflexivity.
Qed.

Lemma given_app k l1 l2 :
  given k (l1 ++ l2) = given k l1 || given k l2.
Proof. unfold given. apply existsb_app. Qed.

(** Parsing a command line with [--verbose] and without it. *)
Lemma parse_verbose argv1 argv2 pre post o :
  po.run desc positionalDesc argv1 = inr (pre ++ post) ->
  po.run desc positionalDesc argv2 = inr (pre ++ o :: post) ->
  is_verbose_flag o ->
  given "verbose" (pre ++ post) = false ->
  match parse argv1 with
  | inl _ => exists e, parse argv2 = inl e
  | inr vm1 =>
      po.m vm1 !! "verbose" = None /\
      exists vm2, parse argv2 = inr vm2 /\
                  po.m vm2 = <["verbose" := verbose_value]> (po.m vm1)
  end.
Proof.
  intros H1 H2 Ho Hg. unfold parse, po.store. rewrite H1, H2.
  cbn [po.m po.m_final po.empty_variables_map].
  rewrite given_app in Hg. apply orb_false_iff in Hg as [Hpre Hpost].
  rewrite !store_options_app. cbn [po.store_options].
  destruct (po.store_options desc ∅ ∅ pre) as [e|xm1] eqn:E1; [eauto|].
  assert (xm1 !! "verbose" = None) as Hx1.
  { by rewrite (store_options_other _ _ _ _ _ _ E1 Hpre). }
  rewrite (store_verbose_flag _ _ Ho Hx1).
  rewrite (store_options_insert _ _ _ _ _ Hpost).
  destruct (po.store_options desc ∅ xm1 post) as [e|xm2] eqn:E2; [eauto|].
  assert (xm2 !! "verbose" = None) as Hx2.
  { by rewrite (store_options_other _ _ _ _ _ _ E2 Hpost). }
  cbn [po.m]. split.
  - by rewrite defaults_lookup.
  - eexists. split; [reflexivity|]. cbn [po.m].
    rewrite !defaults_run. rewrite lookup_insert_ne by done.
    destruct (xm2 !! "master"); [done|]. by rewrite insert_insert_ne.
Qed.

Lemma notify_run vm r :
  po.notify assign desc vm r =
    let r1 := match po.m vm !! "master", po.m vm !! "-m" with
              | Some e, _ => set_master (po.v e) r
              | None, Some e => set_master (po.v e) r
              | None, None => r
              end in
    match po.m vm !! "topic" with
    | Some e => set_topic (po.v e) r1
    | None => r1
    end.
Proof. reflexivity. Qed.
End verbose_facts.

Section main_facts.
Context {boost : po.library string_ref}.
Context {Node : Type} {node_api : NodeAPI Node}.

Lemma main_rejected argv i p code r out' :
  ReadArgs argv (initial i) (stdout (env p)) = (Returns (code, r), out') ->
  code <> 0 ->
  main argv i p =
    (Returns (-1), {| env := set_stdout out' (env p); calls := calls p |}).
Proof.
  intros H Hc. unfold main, call, print, in_env, on_stdout, zoom, cout, bind, modify, ret.
  change {| _verbose := i.1; _selfCall := i.2; _master := ""; _topic := "" |}
    with (initial i).
  rewrite H. destruct (Z.eqb_spec code 0); [done|]. reflexivity.
Qed.

Lemma main_accepted argv i p r out' :
  ReadArgs argv (initial i) (stdout (env p)) = (Returns (0, r), out') ->
  main argv i p =
    let made := [call_Node (_master r) (_verbose r)] in
    match Node_new (_master r) (_verbose r) (set_stdout out' (env p)) with
    | (Returns n0, w0) =>
        let made := made ++ [call_SrvAdvertise (_topic r) echo] in
        match SrvAdvertise n0 (_topic r) echo w0 with
        | (Returns (rc, n1), w1) =>
            from_self_call r n1 (after_advertise rc w1) made p
        | (o, w1) => stopped_in o w1 made p
        end
    | (o, w0) => stopped_in o w0 made p
    end.
Proof.
  intros H. unfold main, call, print, in_env, on_stdout, zoom, cout, bind, modify, ret.
  change {| _verbose := i.1; _selfCall := i.2; _master := ""; _topic := "" |}
    with (initial i).
  rewrite H. cbn [negb Z.eqb env calls].
  unfold from_self_call, spins, stopped_in, after_advertise, after_request, say.
  destruct (Node_new _ _ _) as [[n0| | |] w0]; cbn; try reflexivity.
  destruct (SrvAdvertise _ _ _ _) as [[[rc n1]| | |] w1]; cbn;
    rewrite <- ?app_assoc; try reflexivity.
  destruct (rc =? 0), (_selfCall r); cbn;
    try (destruct (SrvRequest _ _ _ _ _) as [[[[rc2 resp] n2]| | |] w2];
         cbn; rewrite <- ?app_assoc; try reflexivity;
         destruct (rc2 =? 0); cbn);
    destruct (Spin _ _) as [[| | |] ?]; cbn; rewrite <- ?app_assoc;
    reflexivity.
Qed.
End main_facts.

Section node_facts.
Context {cfg : settings}.
Implicit Types (n : Node) (w : world) (ev : event) (evs : list event).

Lemma set_stdout_id w : set_stdout (stdout w) w = w.
Proof. by destruct w. Qed.

Lemma echo_run topic data rep out :
  topic <> "" ->
  echo topic data rep out = (Returns (0, data), out ++ [callback_line topic data]).
Proof.
  intros Hne%String.eqb_neq. unfold echo, bind, assert. by rewrite Hne.
Qed.

Lemma echo_empty data rep out : echo "" data rep out = (Aborts, out).
Proof. reflexivity. Qed.

Lemma invoke_echo topic data rep w :
  topic <> "" ->
  invoke echo topic data rep w =
    (Returns (0, data), say (callback_line topic data) w).
Proof.
  intros Hne. unfold invoke, on_stdout, zoom. by rewrite echo_run.
Qed.

Lemma announce_all_run n w :
  exists w', announce_all n w = (Returns tt, w') /\
             stdout w' = stdout w /\ inbox w' = inbox w.
Proof.
  unfold announce_all. generalize (map_to_list (local n)).*1. intros l.
  revert w. induction l as [|t l IH]; intros w; simpl.
  - by eexists.
  - unfold bind, send, modify. cbn [fst snd].
    match goal with
    | |- context [foldr ?f ?b l ?w0] =>
        destruct (IH w0) as (w' & Heq & H1 & H2)
    end.
    unfold bind, send, modify in Heq. rewrite Heq.
    eexists. split_and!; [reflexivity|by rewrite H1|by rewrite H2].
Qed.

(** One event, on a node that serves [echo]: the dispatch returns, the
    local services stay, the events to come stay, and the standard
    output gets callback lines only. *)
Lemma dispatch_echo ev n w :
  serves_echo n ->
  exists n' w',
    dispatch ev n w = (Returns n', w') /\ local n' = local n /\
    inbox w' = inbox w /\
    exists lines, stdout w' = stdout w ++ lines /\
                  Forall is_callback_line lines.
Proof.
  intros Hn. destruct ev as [e| |]; simpl.
  - destruct (kind e); simpl.
    + eexists _, _. split_and!; [reflexivity..|]. exists []. by rewrite app_nil_r.
    + unfold OnRequest. destruct (local n !! name e) as [cb|] eqn:Hl.
      * destruct (Hn _ _ Hl) as [Hne ->].
        unfold bind. rewrite invoke_echo by done. simpl.
        eexists _, _. split_and!; [reflexivity..|].
        eexists [_]. split; [reflexivity|]. repeat constructor. by eexists _, _.
      * eexists _, _. split_and!; [reflexivity..|]. exists []. by rewrite app_nil_r.
    + eexists _, _. split_and!; [reflexivity| |reflexivity|].
      * unfold OnResponse.
        destruct (pending n !! correlationId e) as [[? [] ?]|]; reflexivity.
      * exists []. by rewrite app_nil_r.
  - unfold OnTick, bind.
    destruct (announce_interval <=? now n + 1 - last_announce n)%N.
    + destruct (announce_all_run n w) as (w' & -> & ? & ?). simpl.
      eexists _, _. split_and!; [reflexivity..|done|].
      exists []. by rewrite app_nil_r.
    + eexists _, _. split_and!; [reflexivity..|]. exists []. by rewrite app_nil_r.
  - eexists _, _. split_and!; [reflexivity..|]. exists []. by rewrite app_nil_r.
Qed.
End node_facts.

Section spin_facts.
Context {cfg : settings}.
Implicit Types (n : Node) (w : world) (ev : event) (evs : list event).

Lemma spin_step ev evs n w :
  ev <> StopSignal ->
  spin (ev :: evs) n w =
    match dispatch ev n (set_inbox evs w) with
    | (Returns n', w') => spin evs n' w'
    | (o, w') => (ended o, w')
    end.
Proof.
  intros Hev. destruct ev; [| |done]; simpl; unfold bind, modify;
    match goal with
    | |- context [match ?d with _ => _ end] => destruct d as [[| | |] ?]
    end; reflexivity.
Qed.

Lemma stop_or_not ev : ev = StopSignal \/ ev <> StopSignal.
Proof. destruct ev; [right|right|left]; done. Qed.

(** [spin] returns at the first stop signal, and only there. *)
Lemma spin_returns evs n w n' w' :
  spin evs n w = (Returns n', w') ->
  exists before after,
    evs = before ++ StopSignal :: after /\ (StopSignal ∉ before) /\
    inbox w' = after.
Proof.
  revert n w. induction evs as [|ev evs IH]; intros n w; [done|].
  destruct (stop_or_not ev) as [->|Hev].
  - simpl. unfold bind, modify, ret. intros [= <- <-].
    exists [], evs. split_and!; [done|apply not_elem_of_nil|done].
  - rewrite spin_step by done.
    destruct (dispatch ev n (set_inbox evs w)) as [[n1| | |] w1]; [|done..].
    intros (before & after & -> & Hb & Hafter)%IH.
    exists (ev :: before), after. split_and!; [done| |done].
    rewrite not_elem_of_cons. auto.
Qed.

(** On a node that serves [echo], [spin] returns at the first stop
    signal and waits for ever if there is none; on the way it writes
    callback lines. *)
Lemma spin_echo evs n w :
  serves_echo n ->
  exists o w' lines,
    spin evs n w = (o, w') /\ stdout w' = stdout w ++ lines /\
    Forall is_callback_line lines /\
    match o with
    | Returns _ => StopSignal ∈ evs
    | Hangs => StopSignal ∉ evs
    | _ => False
    end.
Proof.
  revert n w. induction evs as [|ev evs IH]; intros n w Hn.
  - exists Hangs, w, []. rewrite app_nil_r.
    split_and!; [done..|apply not_elem_of_nil].
  - destruct (stop_or_not ev) as [->|Hev].
    + eexists (Returns n), _, []. rewrite app_nil_r.
      split_and!; [reflexivity|done|done|by left].
    + rewrite spin_step by done.
      destruct (dispatch_echo ev n (set_inbox evs w) Hn)
        as (n1 & w1 & -> & Hl & _ & l1 & Hs1 & Hf1).
      destruct (IH n1 w1) as (o & w2 & l2 & -> & Hs2 & Hf2 & Ho).
      { intros k cb. rewrite Hl. apply Hn. }
      exists o, w2, (l1 ++ l2). split_and!; [done| |by apply Forall_app|].
      * by rewrite Hs2, Hs1, app_assoc.
      * destruct o; try done.
        -- apply elem_of_cons. by right.
        -- apply not_elem_of_cons. split; [congruence|done].
Qed.
End spin_facts.

Section ReadArgs_outcomes.
Context {boost : po.library string_ref}.

Lemma ReadArgs_rejects argv r out :
  rejects argv ->
  exists r', ReadArgs argv r out = (Returns (-1, r'), out ++ [usage]).
Proof.
  unfold rejects. intros H.
  destruct (parse argv) as [e|vm] eqn:Hp.
  { exists r. by eapply ReadArgs_raised. }
  rewrite (ReadArgs_parsed _ _ _ _ Hp). cbv zeta.
  destruct (po.run desc positionalDesc argv) as [e|options] eqn:Hrun.
  { unfold parse in Hp. by rewrite Hrun in Hp. }
  rewrite (count_given _ _ _ "help" Hrun Hp), (count_given _ _ _ "topic" Hrun Hp)
    by done.
  destruct H as [[e He]|[->| ->]].
  - unfold parse in Hp. rewrite Hrun, He in Hp. done.
  - eauto.
  - rewrite orb_true_r. eauto.
Qed.

Lemma ReadArgs_returns argv r out :
  exists code r' out',
    ReadArgs argv r out = (Returns (code, r'), out') /\
    (code = 0 \/ code = -1).
Proof.
  destruct (parse argv) as [e|vm] eqn:Hp.
  - rewrite (ReadArgs_raised _ _ _ _ Hp). eauto 6.
  - rewrite (ReadArgs_parsed _ _ _ _ Hp). cbv zeta.
    destruct (_ || _); eauto 6.
Qed.

Lemma ReadArgs_accepts argv r0 out r out' :
  ReadArgs argv r0 out = (Returns (0, r), out') ->
  exists options vm,
    po.run desc positionalDesc argv = inr options /\
    parse argv = inr vm /\
    given "help" options = false /\ given "topic" options = true /\
    r = accept vm (po.notify assign desc vm r0) /\ out' = out.
Proof.
  destruct (parse argv) as [e|vm] eqn:Hp.
  { rewrite (ReadArgs_raised _ _ _ _ Hp). intros [=]. }
  rewrite (ReadArgs_parsed _ _ _ _ Hp). cbv zeta.
  destruct (po.run desc positionalDesc argv) as [e|options] eqn:Hrun.
  { unfold parse in Hp. by rewrite Hrun in Hp. }
  rewrite (count_given _ _ _ "help" Hrun Hp), (count_given _ _ _ "topic" Hrun Hp)
    by done.
  destruct (given "help" options) eqn:Hh, (given "topic" options) eqn:Ht;
    simpl; try (intros [=]; fail).
  intros [= <- <-]. exists options, vm. split_and!; done.
Qed.
End ReadArgs_outcomes.

Section main_run_facts.
Context {boost : po.library string_ref}.
Context {Node : Type} {node_api : NodeAPI Node}.

Lemma main_reaches_Spin argv i p r out' :
  ReadArgs argv (initial i) (stdout (env p)) = (Returns (0, r), out') ->
  node_calls_return r (set_stdout out' (env p)) ->
  calls (snd (main argv i p)) = calls p ++ calls_of_main r.
Proof.
  intros Hargs (n0 & w0 & rc & n1 & w1 & Hnew & Hadv & Hreq).
  rewrite (main_accepted _ _ _ _ _ Hargs). cbv zeta. rewrite Hnew, Hadv.
  unfold from_self_call, calls_of_main, spins.
  destruct (_selfCall r).
  - specialize (Hreq eq_refl).
    destruct (SrvRequest n1 (_topic r) "" "" (after_advertise rc w1))
      as [[[[rc2 resp] n2]| | |] w2]; [|done..].
    simpl. rewrite <- ?app_assoc. reflexivity.
  - simpl. rewrite <- ?app_assoc. reflexivity.
Qed.

Lemma main_never_returns_failure argv i p r out' :
  ReadArgs argv (initial i) (stdout (env p)) = (Returns (0, r), out') ->
  fst (main argv i p) <> Returns (-1).
Proof.
  intros Hargs. rewrite (main_accepted _ _ _ _ _ Hargs). cbv zeta.
  unfold from_self_call, spins, stopped_in.
  destruct (Node_new _ _ _) as [[n0| | |] w0]; simpl; try done.
  destruct (SrvAdvertise _ _ _ _) as [[[rc n1]| | |] w1]; simpl; try done.
  destruct (_selfCall r); simpl.
  - destruct (SrvRequest _ _ _ _ _) as [[[[rc2 resp] n2]| | |] w2]; simpl;
      try done.
    by destruct (fst (Spin _ _)).
  - by destruct (fst (Spin _ _)).
Qed.

End main_run_facts.

Section node_run_facts.
Context {boost : po.library string_ref}.
Context {cfg : settings}.
Implicit Types (n : Node) (w : world) (ev : event) (evs : list event).

Lemma advertised_serves_echo r : _topic r <> "" -> serves_echo (advertised r).
Proof.
  intros Hne k cb. simpl. intros [<- <-]%lookup_singleton_Some. done.
Qed.

Lemma Spin_run n w : Spin_ n w = spin (inbox w) n w.
Proof. reflexivity. Qed.

Lemma await_step id response ev evs n w :
  pending n !! id ≫= slot = None -> ev <> StopSignal ->
  await id response (ev :: evs) n w =
    match dispatch ev n (set_inbox evs w) with
    | (Returns n', w') => await id response evs n' w'
    | (o, w') => (ended o, w')
    end.
Proof.
  intros Hp Hev. cbn [await]. rewrite Hp.
  destruct ev; [| |done]; unfold bind, modify;
    match goal with
    | |- context [match ?d with _ => _ end] => destruct d as [[| | |] ?]
    end; reflexivity.
Qed.

Lemma await_echo id response evs n w :
  serves_echo n -> returns_or_hangs (fst (await id response evs n w)).
Proof.
  revert n w. induction evs as [|ev evs IH]; intros n w Hn.
  - simpl. by destruct (pending n !! id ≫= slot) as [[]|].
  - destruct (pending n !! id ≫= slot) as [res|] eqn:Hp.
    { cbn [await]. rewrite Hp. by destruct res. }
    destruct (stop_or_not ev) as [->|Hev].
    { cbn [await]. by rewrite Hp. }
    rewrite await_step by done.
    destruct (dispatch_echo ev n (set_inbox evs w) Hn)
      as (n1 & w1 & -> & Hl & _).
    apply IH. intros k cb. rewrite Hl. apply Hn.
Qed.

Lemma Request_echo n topic data response w :
  serves_echo n -> returns_or_hangs (fst (Request_ n topic data response w)).
Proof.
  intros Hn. unfold Request_.
  destruct (local n !! topic) as [cb|] eqn:Hl.
  - destruct (Hn _ _ Hl) as [Hne ->].
    unfold bind. by rewrite invoke_echo.
  - destruct (most_recent _) as [q|]; [|done].
    unfold bind, send, modify, get. cbn [fst snd inbox].
    apply await_echo. intros k cb. apply Hn.
Qed.

Lemma omap_not_aborts {A B} (f : A -> B) (o : outcome A) :
  returns_or_hangs o -> omap f o <> Aborts.
Proof. by destruct o. Qed.

Lemma Spin_echo n w :
  serves_echo n -> returns_or_hangs (fst (Spin_ n w)).
Proof.
  intros Hn. rewrite Spin_run.
  destruct (spin_echo (inbox w) n w Hn) as (o & w' & lines & -> & _ & _ & Ho).
  by destruct o.
Qed.

Lemma main_on_node argv i p r out' :
  ReadArgs argv (initial i) (stdout (env p)) = (Returns (0, r), out') ->
  main argv i p =
    let w := set_stdout out' (env p) in
    let made := [call_Node (_master r) (_verbose r);
                 call_SrvAdvertise (_topic r) echo] in
    if _selfCall r then
      let made := made ++ [call_SrvRequest (_topic r) "" ""] in
      if String.eqb (_topic r) ""
      then (Aborts, {| env := w; calls := calls p ++ made |})
      else spins (advertised r)
             (say (response_line "") (say (callback_line (_topic r) "") w))
             made p
    else spins (advertised r) w made p.
Proof.
  intros Hargs. rewrite (main_accepted _ _ _ _ _ Hargs). cbv zeta.
  cbn [Node_new SrvAdvertise node_api new Advertise ret].
  unfold set_local.
  cbn [local master verbose remote pending next_id now last_announce].
  rewrite lookup_empty, insert_empty. fold (advertised r).
  unfold from_self_call, after_advertise. cbn [Z.eqb].
  destruct (_selfCall r); [|done].
  cbn [SrvRequest node_api]. unfold Request_.
  change (local (advertised r)) with ({[ _topic r := echo ]} : gmap string callback).
  rewrite lookup_singleton_eq.
  destruct (String.eqb_spec (_topic r) "") as [He|Hne].
  - rewrite He. reflexivity.
  - unfold bind. rewrite invoke_echo by done. reflexivity.
Qed.
End node_run_facts.


Section echo_facts.
Context {boost : po.library string_ref}.
Context {Node : Type} {node_api : NodeAPI Node}.

Lemma echo_reply topic data rep out st rep' out' :
  echo topic data rep out = (Returns (st, rep'), out') ->
  st = 0 /\ rep' = data /\ topic <> "".
Proof.
  destruct (String.eqb_spec topic "") as [->|Hne].
  - by rewrite echo_empty.
  - rewrite echo_run by done. by intros [= <- <- _].
Qed.

End echo_facts.

Section more_ReadArgs_facts.
Context {boost : po.library string_ref}.
Implicit Types (xm : gmap string (po.variable_value string_ref))
               (vm : po.variables_map string_ref)
               (o : po.basic_option) (options : list po.basic_option).

Lemma parse_store argv options :
  po.run desc positionalDesc argv = inr options ->
  parse argv = po.store desc options po.empty_variables_map.
Proof. unfold parse. by intros ->. Qed.

Lemma not_rejects argv :
  ~ rejects argv <->
  exists options vm,
    po.run desc positionalDesc argv = inr options /\ parse argv = inr vm /\
    given "help" options = false /\ given "topic" options = true.
Proof.
  unfold rejects. split.
  - intros Hn. destruct (po.run desc positionalDesc argv) as [e|options] eqn:Hrun;
      [by destruct Hn|].
    rewrite (parse_store _ _ Hrun).
    destruct (po.store desc options po.empty_variables_map) as [e|vm];
      [destruct Hn; eauto|].
    exists options, vm. split_and!; [done..| |].
    + destruct (given "help" options); [destruct Hn; auto|done].
    + destruct (given "topic" options); [done|destruct Hn; auto].
  - intros (options & vm & Hrun & Hp & Hh & Ht).
    rewrite (parse_store _ _ Hrun) in Hp. rewrite Hrun, Hp, Hh, Ht.
    intros [[e [=]]|[[=]|[=]]].
Qed.

(** The entry of the topic in the map of an accepted command line. *)
Lemma accepted_entries argv options vm :
  po.run desc positionalDesc argv = inr options -> parse argv = inr vm ->
  given "topic" options = true ->
  exists em et, po.m vm !! "master" = Some em /\ po.m vm !! "topic" = Some et.
Proof.
  intros Hrun Hp Ht. destruct (count_master _ _ Hp) as [em Hem].
  pose proof (count_given _ _ _ "topic" Hrun Hp) as Hc.
  rewrite Ht in Hc. unfold po.count in Hc.
  destruct (po.m vm !! "topic") as [et|]; [eauto|]. by discriminate Hc.
Qed.

Lemma accept_notify vm r0 em et :
  po.m vm !! "master" = Some em -> po.m vm !! "topic" = Some et ->
  accept vm (po.notify assign desc vm r0) =
    {| _verbose := (0 <? po.count vm "verbose")%nat;
       _selfCall := (0 <? po.count vm "self-call")%nat;
       _master := po.v em; _topic := po.v et |}.
Proof.
  intros Hm Ht. rewrite notify_run. unfold accept. by rewrite Hm, Ht.
Qed.
End more_ReadArgs_facts.

Section more_store_facts.
Context {ref : Type}.
Implicit Types (desc : po.options_description ref)
               (xm : gmap string (po.variable_value ref))
               (o : po.basic_option) (options : list po.basic_option).

(** An option whose name has been given a value already is refused. *)
Lemma store_option_again desc xm o x :
  po.string_key o ≠ "" -> po.unregistered o = false ->
  xm !! po.string_key o = Some x -> po.m_defaulted x = false ->
  exists e, po.store_option desc ∅ xm o = inl e.
Proof.
  intros Hne Hu Hx Hd. unfold po.store_option; cbv zeta.
  destruct (String.eqb_spec (po.string_key o) "") as [?|_]; [done|].
  rewrite Hu. rewrite bool_decide_eq_false_2 by set_solver.
  destruct (po.find desc (po.string_key o) false) as [e|d]; [eauto|].
  rewrite Hx, Hd. destruct (po.semantic d); simpl; eauto.
Qed.

Lemma store_options_again desc xm l1 o1 l2 o2 l3 :
  po.string_key o1 ≠ "" -> po.string_key o2 = po.string_key o1 ->
  po.unregistered o1 = false -> po.unregistered o2 = false ->
  exists e, po.store_options desc ∅ xm (l1 ++ o1 :: l2 ++ o2 :: l3) = inl e.
Proof.
  intros Hne Hk Hu1 Hu2. rewrite store_options_app. 
  destruct (po.store_options desc ∅ xm l1) as [e|xa]; [eauto|].
  cbn [po.store_options].
  destruct (po.store_option desc ∅ xa o1) as [e|xb] eqn:H1; [eauto|].
  destruct (store_option_entry _ _ _ _ H1 Hne Hu1) as (d & s & _ & _ & Hx).
  rewrite store_options_app.
  destruct (po.store_options desc ∅ xb l2) as [e|xc] eqn:H2; [eauto|].
  cbn [po.store_options].
  pose proof (store_options_kept _ _ _ _ _ _ _ H2 Hx eq_refl) as Hc.
  rewrite <- Hk in Hc, Hne.
  destruct (store_option_again desc xc o2 _ Hne Hu2 Hc eq_refl) as [e ->]. eauto.
Qed.

Lemma agree_refl {E A} (a : E + A) : agree a a.
Proof. by destruct a. Qed.

Lemma agree_trans {E A} (a b c : E + A) : agree a b -> agree b c -> agree a c.
Proof. destruct a, b, c; simpl; try done. congruence. Qed.

Lemma stored_insert_ne xm k k' x : k' ≠ k -> stored (<[k':=x]> xm) k = stored xm k.
Proof. intros H. unfold stored. by rewrite lookup_insert_ne. Qed.

Lemma store_option_found desc xm o d :
  po.string_key o ≠ "" -> po.unregistered o = false ->
  po.find desc (po.string_key o) false = inr d ->
  po.store_option desc ∅ xm o =
    match po.xparse (po.semantic d) (po.string_key o)
            (stored xm (po.string_key o)) (po.value o) with
    | inl e => inl e
    | inr s => inr (<[po.string_key o :=
                        {| po.v := s; po.m_defaulted := false;
                           po.m_value_semantic := po.semantic d |}]> xm)
    end.
Proof.
  intros Hne Hu Hf. unfold po.store_option; cbv zeta.
  destruct (String.eqb_spec (po.string_key o) "") as [?|_]; [done|].
  rewrite Hu, Hf. by rewrite bool_decide_eq_false_2 by set_solver.
Qed.

Lemma store_option_not_found desc xm o e :
  po.string_key o ≠ "" -> po.unregistered o = false ->
  po.find desc (po.string_key o) false = inl e ->
  po.store_option desc ∅ xm o = inl e.
Proof.
  intros Hne Hu Hf. unfold po.store_option; cbv zeta.
  destruct (String.eqb_spec (po.string_key o) "") as [?|_]; [done|].
  rewrite Hu, Hf. by rewrite bool_decide_eq_false_2 by set_solver.
Qed.

Lemma store_option_skip desc xm o :
  po.string_key o = "" \/ po.unregistered o = true ->
  po.store_option desc ∅ xm o = inr xm.
Proof.
  unfold po.store_option; cbv zeta. intros [->| ->]; [done|].
  by destruct (String.eqb _ _).
Qed.

Lemma store_option_swap desc xm o1 o2 :
  agree (po.store_options desc ∅ xm [o1; o2])
        (po.store_options desc ∅ xm [o2; o1]).
Proof.
  cbn [po.store_options].
  destruct (decide (po.string_key o1 = "" \/ po.unregistered o1 = true)) as [S1|N1].
  { rewrite !(store_option_skip _ _ o1) by done.
    destruct (po.store_option desc ∅ xm o2) as [?|xb]; [done|].
    rewrite (store_option_skip _ _ o1) by done. done. }
  destruct (decide (po.string_key o2 = "" \/ po.unregistered o2 = true)) as [S2|N2].
  { rewrite !(store_option_skip _ _ o2) by done.
    destruct (po.store_option desc ∅ xm o1) as [?|xa]; [done|].
    rewrite (store_option_skip _ _ o2) by done. done. }
  assert (po.string_key o1 ≠ "" /\ po.unregistered o1 = false) as [K1 U1]
    by (destruct (po.unregistered o1); tauto).
  assert (po.string_key o2 ≠ "" /\ po.unregistered o2 = false) as [K2 U2]
    by (destruct (po.unregistered o2); tauto).
  clear N1 N2.
  destruct (decide (po.string_key o2 = po.string_key o1)) as [Heq|Hne].
  - destruct (store_options_again desc xm [] o1 [] o2 [] K1 Heq U1 U2) as [e He].
    destruct (store_options_again desc xm [] o2 [] o1 [] K2 (eq_sym Heq) U2 U1) as [e' He'].
    cbn [app po.store_options] in He, He'.
    destruct (po.store_option desc ∅ xm o1) as [?|xa];
      destruct (po.store_option desc ∅ xm o2) as [?|xb]; simpl; try done.
    + by destruct (po.store_option desc ∅ xb o1).
    + by destruct (po.store_option desc ∅ xa o2).
    + destruct (po.store_option desc ∅ xa o2); [|done].
      by destruct (po.store_option desc ∅ xb o1).
  - destruct (po.find desc (po.string_key o1) false) as [e1|d1] eqn:F1.
    { rewrite (store_option_not_found _ _ o1 _ K1 U1 F1).
      destruct (po.store_option desc ∅ xm o2) as [?|xb]; [done|].
      by rewrite (store_option_not_found _ _ o1 _ K1 U1 F1). }
    destruct (po.find desc (po.string_key o2) false) as [e2|d2] eqn:F2.
    { rewrite (store_option_not_found _ _ o2 _ K2 U2 F2).
      destruct (po.store_option desc ∅ xm o1) as [?|xa]; [done|].
      by rewrite (store_option_not_found _ _ o2 _ K2 U2 F2). }
    rewrite (store_option_found _ xm o1 _ K1 U1 F1).
    rewrite (store_option_found _ xm o2 _ K2 U2 F2).
    destruct (po.xparse (po.semantic d1) _ _ _) as [?|s1] eqn:X1;
      destruct (po.xparse (po.semantic d2) _ _ _) as [?|s2] eqn:X2; try done.
    + rewrite (store_option_found _ _ o1 _ K1 U1 F1).
      rewrite stored_insert_ne by done. by rewrite X1.
    + rewrite (store_option_found _ _ o2 _ K2 U2 F2).
      rewrite stored_insert_ne by done. by rewrite X2.
    + rewrite (store_option_found _ _ o1 _ K1 U1 F1).
      rewrite (store_option_found _ _ o2 _ K2 U2 F2).
      rewrite !stored_insert_ne by done. rewrite X1, X2.
      unfold agree. by rewrite insert_insert_ne.
Qed.

Lemma store_options_Permutation desc xm l1 l2 :
  l1 ≡ₚ l2 ->
  agree (po.store_options desc ∅ xm l1) (po.store_options desc ∅ xm l2).
Proof.
  intros H. revert xm. induction H as [|o l1 l2 _ IH|o1 o2 l|l1 l2 l3 _ IH1 _ IH2];
    intros xm.
  - done.
  - cbn [po.store_options]. destruct (po.store_option desc ∅ xm o); [done|]. apply IH.
  - pose proof (store_option_swap desc xm o2 o1) as Hs.
    change (o2 :: o1 :: l) with ([o2; o1] ++ l).
    change (o1 :: o2 :: l) with ([o1; o2] ++ l).
    rewrite !store_options_app.
    destruct (po.store_options desc ∅ xm [o2; o1]) as [?|xa];
      destruct (po.store_options desc ∅ xm [o1; o2]) as [?|xb]; simpl in Hs; try done.
    subst. apply agree_refl.
  - eapply agree_trans; eauto.
Qed.
End more_store_facts.

Section more_ReadArgs_outcomes.
Context {boost : po.library string_ref}.
Implicit Types (vm : po.variables_map string_ref)
               (o : po.basic_option) (options : list po.basic_option).

(** [ReadArgs] reads the map of the variables map only. *)
Lemma ReadArgs_of_map argv1 argv2 vm1 vm2 r out :
  parse argv1 = inr vm1 -> parse argv2 = inr vm2 -> po.m vm1 = po.m vm2 ->
  ReadArgs argv1 r out = ReadArgs argv2 r out.
Proof.
  intros H1 H2 Hm.
  rewrite (ReadArgs_parsed _ _ _ _ H1), (ReadArgs_parsed _ _ _ _ H2).
  rewrite !notify_run. unfold accept, po.count. by rewrite Hm.
Qed.

(** The code [ReadArgs] returns, by the command line. *)
Lemma ReadArgs_code argv r0 out :
  (rejects argv /\
   exists r, ReadArgs argv r0 out = (Returns (-1, r), out ++ [usage])) \/
  (~ rejects argv /\
   exists r, ReadArgs argv r0 out = (Returns (0, r), out)).
Proof.
  destruct (ReadArgs_returns argv r0 out) as (code & r & out' & H & [->| ->]).
  - right. destruct (ReadArgs_accepts _ _ _ _ _ H)
      as (options & vm & Hrun & Hp & Hh & Ht & _ & ->).
    split; [|eauto]. apply not_rejects. eauto 10.
  - left. assert (rejects argv) as Hr.
    { unfold rejects.
      destruct (po.run desc positionalDesc argv) as [e|options] eqn:Hrun; [done|].
      destruct (po.store desc options po.empty_variables_map) as [e|vm] eqn:Hs;
        [eauto|].
      assert (parse argv = inr vm) as Hp by by rewrite (parse_store _ _ Hrun).
      rewrite (ReadArgs_parsed _ _ _ _ Hp) in H. cbv zeta in H.
      rewrite (count_given _ _ _ "help" Hrun Hp),
        (count_given _ _ _ "topic" Hrun Hp) in H by done.
      destruct (given "help" options), (given "topic" options); simpl in H;
        auto; discriminate H. }
    split; [done|]. destruct (ReadArgs_rejects _ r0 out Hr) as [r' Hr'].
    eauto.
Qed.

(** What [ReadArgs] was given in its arguments does not decide the
    code or the output, nor the values on acceptance. *)
Lemma ReadArgs_initial argv r0 r0' out :
  exists code r r' out',
    ReadArgs argv r0 out = (Returns (code, r), out') /\
    ReadArgs argv r0' out = (Returns (code, r'), out') /\
    (code = 0 -> r = r').
Proof.
  destruct (parse argv) as [e|vm] eqn:Hp.
  { rewrite !(ReadArgs_raised _ _ _ _ Hp). exists (-1), r0, r0', (out ++ [usage]).
    split_and!; done. }
  destruct (parse_run _ _ Hp) as (options & xm & Hrun & _ & _).
  rewrite !(ReadArgs_parsed _ _ _ _ Hp). cbv zeta.
  rewrite (count_given _ _ _ "help" Hrun Hp),
    (count_given _ _ _ "topic" Hrun Hp) by done.
  destruct (given "help" options) eqn:Hh; simpl.
  { eexists _, _, _, _. split_and!; done. }
  destruct (given "topic" options) eqn:Ht; simpl.
  - destruct (accepted_entries _ _ _ Hrun Hp Ht) as (em & et & Hm & Htp).
    rewrite !(accept_notify _ _ _ _ Hm Htp).
    eexists _, _, _, _. split_and!; done.
  - eexists _, _, _, _. split_and!; done.
Qed.
End more_ReadArgs_outcomes.

Section notify_facts.
Context {boost : po.library string_ref}.
Implicit Types (vm : po.variables_map string_ref)
               (o : po.basic_option) (options : list po.basic_option).

(** The entry of an option with a value in the variables map. *)
Lemma parsed_value argv options vm o k :
  po.run desc positionalDesc argv = inr options -> parse argv = inr vm ->
  o ∈ options -> po.string_key o = k -> po.unregistered o = false ->
  k = "master" \/ k = "topic" ->
  exists x, po.m vm !! k = Some x /\ po.value o = [po.v x].
Proof.
  intros Hrun (options' & xm & Hrun' & Hst & Hm)%parse_run Hin Hk Hu Hcase.
  rewrite Hrun in Hrun'. injection Hrun' as <-.
  assert (po.string_key o ≠ "") as Hne
    by (rewrite Hk; destruct Hcase as [->| ->]; done).
  destruct (store_options_entry _ _ _ _ _ Hst Hin Hne Hu) as (d & s & Hf & Hx & He).
  rewrite Hk in Hf, Hx, He.
  exists {| po.v := s; po.m_defaulted := false; po.m_value_semantic := po.semantic d |}.
  split.
  - rewrite Hm. destruct Hcase as [->| ->].
    + rewrite defaults_run. by rewrite He.
    + by rewrite defaults_lookup.
  - destruct Hcase as [->| ->]; vm_compute in Hf; injection Hf as <-;
      simpl in Hx; destruct (po.value o) as [|t [|? ?]]; simpl in *; congruence.
Qed.

Lemma master_not_given argv options vm :
  po.run desc positionalDesc argv = inr options -> parse argv = inr vm ->
  given "master" options = false ->
  po.m vm !! "master" = Some master_default.
Proof.
  intros Hrun (options' & xm & Hrun' & Hst & Hm)%parse_run Hg.
  rewrite Hrun in Hrun'. injection Hrun' as <-.
  rewrite Hm, defaults_run.
  rewrite (store_options_other _ _ _ _ _ _ Hst Hg), lookup_empty.
  by rewrite lookup_insert_eq.
Qed.

End notify_facts.

(* ===================================================================== *)
(** ** The claims *)
(* ===================================================================== *)

(** C1: the echo callback keeps the callback contract. For every topic
    other than the empty string and every payload, [echo] writes its
    line, leaves the payload in the reply and returns status 0. *)
Theorem echo_returns_its_input (topic data rep : string) (out : ostream) :
  topic <> "" ->
  echo topic data rep out =
    (Returns (0, data), out ++ [callback_line topic data]).
Proof. apply echo_run. Qed.

Lemma echo_hello :
  "echo" <> "" /\
  echo "echo" "hello" "" [] =
    (Returns (0, "hello"), [callback_line "echo" "hello"]).
Proof.
  split; [discriminate|].
  apply (echo_returns_its_input "echo" "hello" "" []). discriminate.
Defined.

(** C2: the self-call property, on the node modelled from the
    specification. After [Advertise n topic cb], a request for [topic]
    is served by [cb] in the process: when [cb] returns a status and a
    reply, the request returns them; in every case nothing is sent and no
    event is taken from the transport. With [echo] under a topic that is
    not empty the request returns 0 and the payload; this is what [main]
    gets in self-call mode, where it then prints the empty response and
    goes on to [Spin]. *)
Theorem self_call_is_served_in_process {boost : po.library string_ref}
    {cfg : settings} (n n1 : Node) (topic data response : string)
    (cb : callback) (w w1 : world) (rc : Z) :
  Advertise n topic cb w = (Returns (rc, n1), w1) ->
  (forall st rep out',
     cb topic data response (stdout w1) = (Returns (st, rep), out') ->
     Request_ n1 topic data response w1 =
       (Returns (st, rep, n1), set_stdout out' w1)) /\
  (inbox (snd (Request_ n1 topic data response w1)) = inbox w1 /\
   outbox (snd (Request_ n1 topic data response w1)) = outbox w1) /\
  (cb = echo -> topic <> "" ->
   Request_ n1 topic data response w1 =
     (Returns (0, data, n1), say (callback_line topic data) w1)) /\
  (forall argv i p r out',
     ReadArgs argv (initial i) (stdout (env p)) = (Returns (0, r), out') ->
     _selfCall r = true -> _topic r <> "" ->
     main argv i p =
       spins (advertised r)
         (say (response_line "")
            (say (callback_line (_topic r) "") (set_stdout out' (env p))))
         [call_Node (_master r) (_verbose r);
          call_SrvAdvertise (_topic r) echo;
          call_SrvRequest (_topic r) "" ""] p).
Proof.
  unfold Advertise, ret. intros [= _ <- <-].
  assert (local (set_local (<[topic:=cb]> (local n)) n) !! topic = Some cb)
    as Hl by apply lookup_insert_eq.
  unfold Request_. rewrite Hl. unfold bind, invoke, on_stdout, zoom.
  split_and!.
  - by intros st rep out' ->.
  - by destruct (cb topic data response (stdout w)) as [[[st rep]| | |] out'].
  - by destruct (cb topic data response (stdout w)) as [[[st rep]| | |] out'].
  - intros -> Hne. by rewrite echo_run.
  - intros argv i p r out' Hargs Hs Hne%String.eqb_neq.
    rewrite (main_on_node _ _ _ _ _ Hargs). cbv zeta. by rewrite Hs, Hne.
Qed.

Lemma replier_self_call :
  Advertise (cfg := example_settings) (advertised (accepted true "" "other"))
    "echo" echo quiet =
    (Returns (0, set_local (<["echo" := echo]> {["other" := echo]})
                   (advertised (accepted true "" "other"))), quiet) /\
  Request_ (cfg := example_settings)
    (set_local (<["echo" := echo]> {["other" := echo]})
       (advertised (accepted true "" "other")))
    "echo" "hello" "" quiet =
    (Returns (0, "hello",
              set_local (<["echo" := echo]> {["other" := echo]})
                (advertised (accepted true "" "other"))),
     say (callback_line "echo" "hello") quiet).
Proof.
  assert (Advertise (cfg := example_settings)
            (advertised (accepted true "" "other")) "echo" echo quiet =
          (Returns (0, set_local (<["echo" := echo]> {["other" := echo]})
                         (advertised (accepted true "" "other"))), quiet)) as H.
  { reflexivity. }
  split; [exact H|].
  apply (proj1 (proj2 (proj2 (self_call_is_served_in_process
                  (boost := po.boost_library) (cfg := example_settings)
                  _ _ "echo" "hello" "" echo _ _ _ H))));
    [reflexivity|discriminate].
Defined.



(** C4, amended: the verbosity flag sets [_verbose] and nothing else.
    For two command lines that the library reads the same but for the
    flag [--verbose], [ReadArgs] returns the same code and prints the
    same, and leaves the same [_selfCall], [_master] and [_topic]; when
    it accepts, [_verbose] is false without the flag and true with it.
    The command lines are compared as the library reads them, since a
    token [-v] is not the flag at every place (see
    [verbose_token_is_not_ignored]). *)
Theorem verbose_only_sets_verbose {boost : po.library string_ref}
    (argv1 argv2 : list string) (r : refs) (out : ostream) :
  same_but_verbose (po.run desc positionalDesc argv1)
                   (po.run desc positionalDesc argv2) ->
  exists code r1 r2 out',
    ReadArgs argv1 r out = (Returns (code, r1), out') /\
    ReadArgs argv2 r out = (Returns (code, r2), out') /\
    _selfCall r1 = _selfCall r2 /\ _master r1 = _master r2 /\
    _topic r1 = _topic r2 /\
    (code = 0 -> _verbose r1 = false /\ _verbose r2 = true) /\
    (code <> 0 -> _verbose r1 = _verbose r2).
Proof.
  intros H. inversion H as [e1 e2 H1 H2|pre post o Ho Hg H1 H2].
  - symmetry in H1, H2.
    assert (parse argv1 = inl e1) as P1 by (unfold parse; by rewrite H1).
    assert (parse argv2 = inl e2) as P2 by (unfold parse; by rewrite H2).
    rewrite (ReadArgs_raised _ _ _ _ P1), (ReadArgs_raised _ _ _ _ P2).
    eexists _, _, _, _. split_and!; try reflexivity; done.
  - symmetry in H1, H2.
    pose proof (parse_verbose _ _ _ _ _ H1 H2 Ho Hg) as Hp.
    destruct (parse argv1) as [e1|vm1] eqn:P1.
    + destruct Hp as [e2 P2].
      rewrite (ReadArgs_raised _ _ _ _ P1), (ReadArgs_raised _ _ _ _ P2).
      eexists _, _, _, _. split_and!; try reflexivity; done.
    + destruct Hp as (Hv1 & vm2 & P2 & Hm).
      rewrite (ReadArgs_parsed _ _ _ _ P1), (ReadArgs_parsed _ _ _ _ P2).
      cbv zeta. rewrite !notify_run. unfold accept, po.count. rewrite Hm.
      rewrite !lookup_insert_ne by done. rewrite lookup_insert_eq, Hv1.
      destruct (po.m vm1 !! "help"), (po.m vm1 !! "topic"); simpl;
        eexists _, _, _, _; (split_and!; [reflexivity|reflexivity|..]);
        try done;
        destruct (po.m vm1 !! "master"), (po.m vm1 !! "-m"),
                 (po.m vm1 !! "self-call"); done.
Qed.

Lemma replier_verbose_or_not :
  same_but_verbose
    (po.run (library := po.boost_library) desc positionalDesc
       ["replier"; "-s"; "echo"])
    (po.run (library := po.boost_library) desc positionalDesc
       ["replier"; "-s"; "--verbose"; "echo"]) /\
  exists code r1 r2 out',
    ReadArgs (boost := po.boost_library) ["replier"; "-s"; "echo"]
      (initial (true, false)) [] = (Returns (code, r1), out') /\
    ReadArgs (boost := po.boost_library) ["replier"; "-s"; "--verbose"; "echo"]
      (initial (true, false)) [] = (Returns (code, r2), out') /\
    _selfCall r1 = _selfCall r2 /\ _master r1 = _master r2 /\
    _topic r1 = _topic r2 /\
    (code = 0 -> _verbose r1 = false /\ _verbose r2 = true) /\
    (code <> 0 -> _verbose r1 = _verbose r2).
Proof.
  assert (same_but_verbose
            (po.run (library := po.boost_library) desc positionalDesc
               ["replier"; "-s"; "echo"])
            (po.run (library := po.boost_library) desc positionalDesc
               ["replier"; "-s"; "--verbose"; "echo"])) as H.
  { vm_compute.
    apply (verbose_added [po.keyed "self-call" []]
             [{| po.string_key := "topic"; po.position_key := 0;
                 po.value := ["echo"]; po.unregistered := false |}]
             (po.keyed "verbose" [])).
    - repeat split.
    - reflexivity. }
  split; [exact H|].
  exact (verbose_only_sets_verbose (boost := po.boost_library) _ _ _ _ H).
Defined.

(** C4 as it is worded, for every two command lines that are the same
    but for a token [-v] or [--verbose], fails on the reference parser:
    after the terminator [--] the token is the topic, so that a command
    line without a topic is accepted once the token is added; and after
    [-m] the token stands where the value of the option is expected, so
    that an accepted command line is refused once the token is added;
    and where the flag is given already, one more is an option given
    twice, which [store] refuses. *)
Lemma verbose_token_is_not_ignored :
  with_the_verbose_token ["replier"; "--"] ["replier"; "--"; "-v"] /\
  fst (replier_ReadArgs ["replier"; "--"]) =
    Returns (-1, initial (false, false)) /\
  fst (replier_ReadArgs ["replier"; "--"; "-v"]) =
    Returns (0, accepted false "" "-v") /\
  with_the_verbose_token ["replier"; "-m"; "x"; "echo"]
                         ["replier"; "-m"; "-v"; "x"; "echo"] /\
  fst (replier_ReadArgs ["replier"; "-m"; "x"; "echo"]) =
    Returns (0, accepted false "x" "echo") /\
  fst (replier_ReadArgs ["replier"; "-m"; "-v"; "x"; "echo"]) =
    Returns (-1, initial (false, false)) /\
  with_the_verbose_token ["replier"; "-v"; "echo"]
                         ["replier"; "-v"; "-v"; "echo"] /\
  fst (replier_ReadArgs ["replier"; "-v"; "echo"]) =
    Returns (0, set_verbose true (accepted false "" "echo")) /\
  fst (replier_ReadArgs ["replier"; "-v"; "-v"; "echo"]) =
    Returns (-1, initial (false, false)) /\
  ~ verbose_token_is_ignored (boost := po.boost_library).
Proof.
  assert (with_the_verbose_token ["replier"; "--"] ["replier"; "--"; "-v"])
    as Hpair by (exists ["replier"; "--"], [], "-v"; auto).
  split_and!;
    [exact Hpair|vm_compute; reflexivity|vm_compute; reflexivity|
    |vm_compute; reflexivity|vm_compute; reflexivity|
    |vm_compute; reflexivity|vm_compute; reflexivity|].
  - exists ["replier"; "-m"], ["x"; "echo"], "-v". auto.
  - exists ["replier"; "-v"], ["echo"], "-v". auto.
  - intros H.
    destruct (H ["replier"; "--"] ["replier"; "--"; "-v"]
                (initial (false, false)) []
                (-1) (initial (false, false)) [usage (boost := po.boost_library)]
                0 (accepted false "" "-v") [] Hpair
                ltac:(vm_compute; reflexivity) ltac:(vm_compute; reflexivity))
      as [Hcode _].
    discriminate Hcode.
Qed.

(** The flag is compared as the library reads it: after the terminator
    the token [-v] is the topic, and not the flag. *)
Example a_token_that_is_not_the_flag :
  po.run (library := po.boost_library) desc positionalDesc
    ["replier"; "--"; "-v"] =
    inr [{| po.string_key := "topic"; po.position_key := 0;
            po.value := ["-v"]; po.unregistered := false |}] /\
  replier_ReadArgs ["replier"; "--"; "-v"] =
    (Returns (0, accepted false "" "-v"), []).
Proof. split; vm_compute; reflexivity. Qed.

(** C5: on the node modelled from the specification, [Spin] returns at
    the first stop signal and only there: it has then handled the events
    before the signal, and without a signal among the events to come it
    does not return. So when [main] returns on an accepted command line,
    it returns 0 and a stop signal was among the events. *)
Theorem Spin_returns_at_the_stop_signal {boost : po.library string_ref}
    {cfg : settings} :
  (forall (n n' : Node) (w w' : world),
     Spin_ n w = (Returns n', w') ->
     exists before after,
       inbox w = before ++ StopSignal :: after /\ (StopSignal ∉ before) /\
       inbox w' = after) /\
  (forall (n : Node) (w : world),
     StopSignal ∉ inbox w -> returned (fst (Spin_ n w)) = false) /\
  (forall argv i p r out' code p',
     ReadArgs argv (initial i) (stdout (env p)) = (Returns (0, r), out') ->
     main argv i p = (Returns code, p') ->
     code = 0 /\ StopSignal ∈ inbox (env p)).
Proof.
  assert (forall (n n' : Node) (w w' : world),
            Spin_ n w = (Returns n', w') -> StopSignal ∈ inbox w) as Hstop.
  { intros n n' w w' (before & after & -> & _)%spin_returns. set_solver. }
  split_and!.
  - intros n n' w w'. apply spin_returns.
  - intros n w Hno. destruct (Spin_ n w) as [[n'| | |] w'] eqn:Hs; [|done..].
    destruct Hno. by eapply Hstop.
  - intros argv i p r out' code p' Hargs.
    rewrite (main_on_node _ _ _ _ _ Hargs). cbv zeta. unfold spins.
    destruct (_selfCall r); [destruct (String.eqb _ _); [done|]|];
      match goal with
      | |- context [Spin ?n ?w] => destruct (Spin n w) as [[n'| | |] w'] eqn:Hs
      end; simpl; intros [= <- <-]; (split; [done|]);
      apply Hstop in Hs; exact Hs.
Qed.

Lemma replier_returns_when_stopped :
  replier_ReadArgs ["replier"; "echo"] =
    (Returns (0, accepted false "" "echo"), []) /\
  fst (replier_main ["replier"; "echo"] busy) = Returns 0 /\
  StopSignal ∈ inbox busy /\
  fst (replier_main ["replier"; "echo"] quiet) = Hangs.
Proof.
  split; [vm_compute; reflexivity|].
  assert (replier_main ["replier"; "echo"] busy =
          (Returns 0, snd (replier_main ["replier"; "echo"] busy))) as H.
  { vm_compute. reflexivity. }
  split; [by rewrite H|]. split; [|vm_compute; reflexivity].
  exact (proj2 (proj2 (proj2 (Spin_returns_at_the_stop_signal
                                (boost := po.boost_library)
                                (cfg := example_settings)))
                  ["replier"; "echo"] (false, false) (fresh busy)
                  (accepted false "" "echo") [] 0 _
                  ltac:(vm_compute; reflexivity) H)).
Defined.

(** C6: with service names that are not empty, the assertion of [echo]
    holds. On the node modelled from the specification: advertising
    [echo] under a name that is not empty keeps every local service
    under such a name; on such a node no request, no event and no run of
    [Spin] ends in a failed assertion, whatever arrives; and [main] on an
    accepted command line with a topic that is not empty never aborts. *)
Theorem echo_assertion_never_fails {boost : po.library string_ref}
    {cfg : settings} :
  (forall (n : Node) (topic : string) (w : world),
     serves_echo n -> topic <> "" ->
     exists rc n' w', Advertise n topic echo w = (Returns (rc, n'), w') /\
                      serves_echo n') /\
  (forall (n : Node) (w : world),
     serves_echo n ->
     (forall topic data response,
        fst (Request_ n topic data response w) <> Aborts) /\
     (forall ev, exists n' w',
        dispatch ev n w = (Returns n', w') /\ serves_echo n') /\
     fst (Spin_ n w) <> Aborts) /\
  (forall argv i p r out',
     ReadArgs argv (initial i) (stdout (env p)) = (Returns (0, r), out') ->
     _topic r <> "" ->
     fst (main argv i p) <> Aborts).
Proof.
  split_and!.
  - intros n topic w Hn Hne. eexists _, _, _. split; [reflexivity|].
    intros k cb. simpl. intros [[<- <-]|[_ Hl]]%lookup_insert_Some; [done|].
    by apply Hn.
  - intros n w Hn. split_and!.
    + intros topic data response.
      pose proof (Request_echo n topic data response w Hn) as H.
      by destruct (fst (Request_ n topic data response w)).
    + intros ev.
      destruct (dispatch_echo ev n w Hn) as (n' & w' & -> & Hl & _).
      eexists _, _. split; [done|]. intros k cb. rewrite Hl. apply Hn.
    + pose proof (Spin_echo n w Hn) as H. by destruct (fst (Spin_ n w)).
  - intros argv i p r out' Hargs Hne.
    rewrite (main_on_node _ _ _ _ _ Hargs). cbv zeta. unfold spins.
    apply String.eqb_neq in Hne as Hb. rewrite Hb.
    destruct (_selfCall r); cbn [fst];
      apply omap_not_aborts, Spin_echo, advertised_serves_echo, Hne.
Qed.

Lemma replier_echo_never_aborts :
  replier_ReadArgs ["replier"; "-s"; "echo"] =
    (Returns (0, accepted true "" "echo"), []) /\
  fst (replier_main ["replier"; "-s"; "echo"] busy) <> Aborts /\
  stdout (env (snd (replier_main ["replier"; "-s"; "echo"] busy))) =
    [callback_line "echo" ""; response_line ""; callback_line "echo" "hello"].
Proof.
  split; [vm_compute; reflexivity|]. split; [|vm_compute; reflexivity].
  apply (proj2 (proj2 (echo_assertion_never_fails (boost := po.boost_library)
                         (cfg := example_settings)))
           ["replier"; "-s"; "echo"] (false, false) (fresh busy)
           (accepted true "" "echo") []);
    [vm_compute; reflexivity|discriminate].
Defined.

(** The precondition of C6 is needed: the empty topic is accepted by
    [ReadArgs], and the self-call then fails the assertion of [echo]. *)
Example replier_empty_topic :
  replier_ReadArgs ["replier"; "-s"; ""] =
    (Returns (0, accepted true "" ""), []) /\
  fst (replier_main ["replier"; "-s"; ""] busy) = Aborts.
Proof. split; vm_compute; reflexivity. Qed.

(** C7: the master endpoint. When [ReadArgs] accepts a command line
    without the option [--master], [_master] is the empty string, the
    default declared for the option; an option [--master] that is given
    has [_master] as its one value; and [_master] is the endpoint the node
    is constructed with: [main] runs the constructor on [_master] and
    [_verbose], ends with it when it does not return, and goes on to
    [SrvAdvertise] with the node it returns. *)
Theorem master_defaults_to_empty {boost : po.library string_ref}
    {Node : Type} {node_api : NodeAPI Node} (argv : list string)
    (options : list po.basic_option) (i : bool * bool) (p : process)
    (r : refs) (out' : ostream) :
  po.run desc positionalDesc argv = inr options ->
  ReadArgs argv (initial i) (stdout (env p)) = (Returns (0, r), out') ->
  (given "master" options = false -> _master r = "") /\
  (forall o, o ∈ options -> po.string_key o = "master" ->
             po.unregistered o = false -> po.value o = [_master r]) /\
  main argv i p =
    match Node_new (_master r) (_verbose r) (set_stdout out' (env p)) with
    | (Returns n0, w0) => from_advertise r n0 w0 p
    | (o, w0) => stopped_in o w0 [call_Node (_master r) (_verbose r)] p
    end /\
  (exists rest,
     calls (snd (main argv i p)) =
       calls p ++ call_Node (_master r) (_verbose r) :: rest).
Proof.
  intros Hrun Hargs.
  destruct (ReadArgs_accepts _ _ _ _ _ Hargs)
    as (options' & vm & Hrun' & Hp & _ & _ & Hr & _).
  rewrite Hrun in Hrun'. injection Hrun' as <-.
  destruct (parse_run _ _ Hp) as (options' & xm & Hrun' & Hst & Hm).
  rewrite Hrun in Hrun'. injection Hrun' as <-.
  assert (forall x, po.m vm !! "master" = Some x -> _master r = po.v x)
    as Hmaster.
  { intros x Hx. rewrite Hr. unfold accept. by rewrite Hx. }
  split_and!.
  - intros Hg. rewrite (Hmaster master_default); [done|].
    rewrite Hm, defaults_run.
    rewrite (store_options_other _ _ _ _ _ _ Hst Hg), lookup_empty.
    by rewrite lookup_insert_eq.
  - intros o Hin Hk Hu.
    destruct (store_options_entry _ _ _ _ o Hst Hin)
      as (d & s & Hd & Hparse & Hx); [by rewrite Hk|done|].
    rewrite Hk in Hd, Hparse, Hx.
    injection Hd as <-.
    rewrite (Hmaster {| po.v := s; po.m_defaulted := false;
                        po.m_value_semantic :=
                          po.typed_value (Some ref_master) (Some "") |}).
    + simpl in Hparse. simpl.
      destruct (po.value o) as [|? [|? ?]]; by simplify_eq.
    + rewrite Hm, defaults_run. by rewrite Hx.
  - by rewrite (main_accepted _ _ _ _ _ Hargs).
  - rewrite (main_accepted _ _ _ _ _ Hargs). cbv zeta.
    unfold from_self_call, spins, stopped_in.
    destruct (Node_new _ _ _) as [[n0| | |] w0]; simpl; eauto.
    destruct (SrvAdvertise _ _ _ _) as [[[rc n1]| | |] w1]; simpl; eauto.
    destruct (_selfCall r); simpl; eauto.
    destruct (SrvRequest _ _ _ _ _) as [[[[rc2 resp] n2]| | |] w2]; simpl; eauto.
Qed.

Lemma replier_master_endpoint :
  (replier_ReadArgs ["replier"; "echo"] =
     (Returns (0, accepted false "" "echo"), []) /\
   replier_tracing ["replier"; "echo"] quiet =
     traced ["Node()"; "SrvAdvertise(echo)"; "Spin()"]
       [call_Node "" false; call_SrvAdvertise "echo" echo; call_Spin]) /\
  (replier_ReadArgs ["replier"; "--master"; "tcp://hub:5555"; "echo"] =
     (Returns (0, accepted false "tcp://hub:5555" "echo"), []) /\
   po.value (po.keyed "master" ["tcp://hub:5555"]) = ["tcp://hub:5555"] /\
   replier_tracing ["replier"; "--master"; "tcp://hub:5555"; "echo"] quiet =
     traced ["Node(tcp://hub:5555)"; "SrvAdvertise(echo)"; "Spin()"]
       [call_Node "tcp://hub:5555" false; call_SrvAdvertise "echo" echo;
        call_Spin]).
Proof.
  pose proof (master_defaults_to_empty (boost := po.boost_library)
                (node_api := tracing_node)
                ["replier"; "echo"] [an_option "topic" "echo" 0]
                (false, false) (fresh quiet) (accepted false "" "echo") []
                ltac:(vm_compute; reflexivity) ltac:(vm_compute; reflexivity))
    as (_ & _ & Hmain & _).
  pose proof (master_defaults_to_empty (boost := po.boost_library)
                (node_api := tracing_node)
                ["replier"; "--master"; "tcp://hub:5555"; "echo"]
                [po.keyed "master" ["tcp://hub:5555"];
                 an_option "topic" "echo" 0]
                (false, false) (fresh quiet)
                (accepted false "tcp://hub:5555" "echo") []
                ltac:(vm_compute; reflexivity) ltac:(vm_compute; reflexivity))
    as (_ & Hvalue & Hmain' & _).
  split.
  - split; [vm_compute; reflexivity|].
    unfold replier_tracing. rewrite Hmain. vm_compute; reflexivity.
  - split; [vm_compute; reflexivity|]. split.
    + apply (Hvalue (po.keyed "master" ["tcp://hub:5555"]));
        [set_solver|reflexivity|reflexivity].
    + unfold replier_tracing. rewrite Hmain'. vm_compute; reflexivity.
Defined.

(** C8: [ReadArgs] returns for every argument vector, with 0 or -1,
    and no exception leaves it: an error that the library raises while
    parsing is caught, the usage is printed, -1 is returned and the
    referenced objects are as they were. *)
Theorem ReadArgs_catches_every_error {boost : po.library string_ref}
    (argv : list string) (r : refs) (out : ostream) :
  exists code r' out',
    ReadArgs argv r out = (Returns (code, r'), out') /\
    (code = 0 \/ code = -1) /\
    (forall e, parse argv = inl e ->
               code = -1 /\ r' = r /\ out' = out ++ [usage]).
Proof.
  destruct (parse argv) as [e|vm] eqn:Hp.
  - rewrite (ReadArgs_raised _ _ _ _ Hp).
    eexists _, _, _. split_and!; [reflexivity|by right|done].
  - destruct (ReadArgs_returns argv r out) as (code & r' & out' & -> & Hc).
    eexists _, _, _. split_and!; [reflexivity|done|done].
Qed.

(** C9: a failed advertise does not end [main]. Whatever code
    [SrvAdvertise] returns, [main] goes on from the self-call the same
    way; a code other than 0 adds one printed line and nothing else. In
    self-call mode [SrvRequest] is called, [Spin] is entered when that
    call returns, and [main] does not return -1. *)
Theorem failed_advertise_is_not_fatal {boost : po.library string_ref}
    {Node : Type} {node_api : NodeAPI Node} (argv : list string)
    (i : bool * bool) (p : process) (r : refs) (out' : ostream)
    (n0 n1 : Node) (w0 w1 : world) (rc : Z) :
  ReadArgs argv (initial i) (stdout (env p)) = (Returns (0, r), out') ->
  Node_new (_master r) (_verbose r) (set_stdout out' (env p)) = (Returns n0, w0) ->
  SrvAdvertise n0 (_topic r) echo w0 = (Returns (rc, n1), w1) ->
  let made := [call_Node (_master r) (_verbose r);
               call_SrvAdvertise (_topic r) echo] in
  main argv i p = from_self_call r n1 (after_advertise rc w1) made p /\
  (rc <> 0 -> after_advertise rc w1 = say advertise_failed w1) /\
  (rc = 0 -> after_advertise rc w1 = w1) /\
  (_selfCall r = true ->
   call_SrvRequest (_topic r) "" "" ∈ calls (snd (main argv i p))) /\
  ((_selfCall r = true ->
    returned (fst (SrvRequest n1 (_topic r) "" "" (after_advertise rc w1)))
    = true) ->
   calls (snd (main argv i p)) = calls p ++ calls_of_main r) /\
  fst (main argv i p) <> Returns (-1).
Proof.
  intros Hargs Hnew Hadv made.
  assert (main argv i p = from_self_call r n1 (after_advertise rc w1) made p)
    as Hmain.
  { rewrite (main_accepted _ _ _ _ _ Hargs). cbv zeta. by rewrite Hnew, Hadv. }
  split_and!; [done| | | | |].
  - unfold after_advertise. by intros ->%Z.eqb_neq.
  - by intros ->.
  - intros Hs. rewrite Hmain. unfold from_self_call, spins, stopped_in.
    rewrite Hs.
    destruct (SrvRequest _ _ _ _ _) as [[[[rc2 resp] n2]| | |] w2]; simpl;
      set_solver.
  - intros Hreq. apply main_reaches_Spin with out'; [done|].
    by exists n0, w0, rc, n1, w1.
  - by eapply main_never_returns_failure.
Qed.

Lemma replier_offline_still_spins :
  replier_ReadArgs ["replier"; "-s"; "echo"] =
    (Returns (0, accepted true "" "echo"), []) /\
  replier_offline ["replier"; "-s"; "echo"] quiet =
    (Returns 0,
     {| env := {| stdout := [advertise_failed; response_line ""];
                  inbox := []; outbox := [] |};
        calls := [call_Node "" false; call_SrvAdvertise "echo" echo;
                  call_SrvRequest "echo" "" ""; call_Spin] |}).
Proof.
  split; [vm_compute; reflexivity|]. unfold replier_offline.
  rewrite (proj1 (failed_advertise_is_not_fatal (boost := po.boost_library)
                    (node_api := offline_node)
                    ["replier"; "-s"; "echo"] (false, false) (fresh quiet)
                    (accepted true "" "echo") [] tt tt quiet quiet (-1)
                    ltac:(vm_compute; reflexivity) eq_refl eq_refl)).
  vm_compute. reflexivity.
Defined.

(** C10: in self-call mode the payload [main] sends is the empty
    string. On an accepted command line with [--self-call], once the node
    is constructed and [SrvAdvertise] has returned, [SrvRequest] is called
    with the topic, the payload "" and the response ""; when it returns 0
    with a response, [main] prints that response and enters [Spin]; and
    when the response is what [echo] replies to the payload, the response
    printed is the empty string. *)
Theorem self_call_sends_the_empty_payload {boost : po.library string_ref}
    {Node : Type} {node_api : NodeAPI Node} (argv : list string)
    (i : bool * bool) (p : process) (r : refs) (out' : ostream)
    (n0 n1 : Node) (w0 w1 : world) (rc : Z) :
  ReadArgs argv (initial i) (stdout (env p)) = (Returns (0, r), out') ->
  Node_new (_master r) (_verbose r) (set_stdout out' (env p)) = (Returns n0, w0) ->
  SrvAdvertise n0 (_topic r) echo w0 = (Returns (rc, n1), w1) ->
  _selfCall r = true ->
  let made := [call_Node (_master r) (_verbose r);
               call_SrvAdvertise (_topic r) echo;
               call_SrvRequest (_topic r) "" ""] in
  let w := after_advertise rc w1 in
  (exists rest, calls (snd (main argv i p)) = calls p ++ made ++ rest) /\
  (forall response n2 w2,
     SrvRequest n1 (_topic r) "" "" w = (Returns (0, response, n2), w2) ->
     main argv i p = spins n2 (say (response_line response) w2) made p /\
     ((exists rep out st out1,
         echo (_topic r) "" rep out = (Returns (st, response), out1)) ->
      main argv i p = spins n2 (say (response_line "") w2) made p)).
Proof.
  intros Hargs Hnew Hadv Hs made w.
  assert (main argv i p =
          from_self_call r n1 w
            [call_Node (_master r) (_verbose r);
             call_SrvAdvertise (_topic r) echo] p) as Hmain.
  { rewrite (main_accepted _ _ _ _ _ Hargs). cbv zeta. by rewrite Hnew, Hadv. }
  rewrite Hmain. unfold from_self_call. rewrite Hs. split.
  - unfold spins, stopped_in.
    destruct (SrvRequest _ _ _ _ _) as [[[[rc2 resp] n2]| | |] w2]; simpl.
    + exists [call_Spin]. rewrite <- ?app_assoc. reflexivity.
    + exists []. rewrite ?app_nil_r. reflexivity.
    + exists []. rewrite ?app_nil_r. reflexivity.
    + exists []. rewrite ?app_nil_r. reflexivity.
  - intros response n2 w2 ->. split; [reflexivity|].
    intros (rep & out & st & out1 & (_ & -> & _)%echo_reply). reflexivity.
Qed.

Lemma replier_prints_empty_response :
  replier_ReadArgs ["replier"; "-s"; "echo"] =
    (Returns (0, accepted true "" "echo"), []) /\
  replier_main ["replier"; "-s"; "echo"] quiet =
    spins (node_api := node_api (cfg := example_settings))
      (advertised (accepted true "" "echo"))
      (say (response_line "") (say (callback_line "echo" "") quiet))
      [call_Node "" false; call_SrvAdvertise "echo" echo;
       call_SrvRequest "echo" "" ""] (fresh quiet).
Proof.
  split; [vm_compute; reflexivity|].
  refine (proj2 (proj2 (self_call_sends_the_empty_payload
                   (boost := po.boost_library)
                   (node_api := node_api (cfg := example_settings))
                   ["replier"; "-s"; "echo"] (false, false) (fresh quiet)
                   (accepted true "" "echo") []
                   (set_local ∅ (advertised (accepted true "" "echo")))
                   (advertised (accepted true "" "echo")) quiet quiet 0
                   ltac:(vm_compute; reflexivity) eq_refl eq_refl eq_refl)
                   "" (advertised (accepted true "" "echo"))
                   (say (callback_line "echo" "") quiet) eq_refl) _).
  exists "", [], 0, [callback_line "echo" ""]. reflexivity.
Defined.

(* ===================================================================== *)
(** ** Further properties of the code *)
(* ===================================================================== *)

(** X1: [echo] fails its assertion exactly when the topic is the empty
    string, and then it has written nothing; it never throws and always
    comes back; and what the reply held on entry has no effect. *)
Theorem echo_aborts_exactly_on_the_empty_topic
    (topic data rep : string) (out : ostream) :
  (fst (echo topic data rep out) = Aborts <-> topic = "") /\
  (topic = "" -> snd (echo topic data rep out) = out) /\
  (forall e, fst (echo topic data rep out) <> Throws e) /\
  fst (echo topic data rep out) <> Hangs /\
  (forall rep', echo topic data rep' out = echo topic data rep out).
Proof.
  destruct (decide (topic = "")) as [->|Hne].
  - rewrite echo_empty. split_and!; try done.
  - rewrite (echo_run _ _ _ _ Hne). split_and!; try done.
    intros rep'. by rewrite (echo_run _ _ _ _ Hne).
Qed.

(** X2: [ReadArgs] returns 0 exactly for the command lines that parse
    without an error, carry no [--help] and carry a topic, and then it
    has printed nothing; it returns -1 exactly for the others, after
    printing the usage once. *)
Theorem ReadArgs_accepts_exactly {boost : po.library string_ref}
    (argv : list string) (r0 : refs) (out : ostream) :
  (~ rejects argv <->
   exists r, ReadArgs argv r0 out = (Returns (0, r), out)) /\
  (rejects argv <->
   exists r, ReadArgs argv r0 out = (Returns (-1, r), out ++ [usage])) /\
  (forall code r out',
     ReadArgs argv r0 out = (Returns (code, r), out') ->
     code = 0 /\ out' = out \/ code = -1 /\ out' = out ++ [usage]).
Proof.
  destruct (ReadArgs_code argv r0 out) as [[Hr [r H]]|[Hn [r H]]]; rewrite H.
  - split_and!.
    + split; [done|]. by intros [? [=]].
    + split; [eauto|done].
    + intros code r' out' [= <- <- <-]. by right.
  - split_and!.
    + split; [eauto|done].
    + split; [done|]. by intros [? [=]].
    + intros code r' out' [= <- <- <-]. by left.
Qed.

(** X3: on acceptance the two flags are exactly what the command line
    says: [_verbose] is true if and only if [--verbose] is among the
    parsed options, and [_selfCall] if and only if [--self-call] is. *)
Theorem flags_follow_the_options {boost : po.library string_ref}
    (argv : list string) (options : list po.basic_option)
    (r0 r : refs) (out out' : ostream) :
  po.run desc positionalDesc argv = inr options ->
  ReadArgs argv r0 out = (Returns (0, r), out') ->
  _verbose r = given "verbose" options /\
  _selfCall r = given "self-call" options.
Proof.
  intros Hrun (options' & vm & Hrun' & Hp & _ & Ht & -> & _)%ReadArgs_accepts.
  rewrite Hrun in Hrun'. injection Hrun' as <-.
  destruct (accepted_entries _ _ _ Hrun Hp Ht) as (em & et & Hm & Htp).
  rewrite (accept_notify _ _ _ _ Hm Htp). cbn [_verbose _selfCall].
  by rewrite (count_given _ _ _ "verbose" Hrun Hp),
    (count_given _ _ _ "self-call" Hrun Hp).
Qed.

Lemma replier_flags :
  po.run (library := po.boost_library) desc positionalDesc
    ["replier"; "-s"; "echo"] = inr [a_flag "self-call"; an_option "topic" "echo" 0] /\
  replier_ReadArgs ["replier"; "-s"; "echo"] =
    (Returns (0, accepted true "" "echo"), []) /\
  _verbose (accepted true "" "echo") =
    given "verbose" [a_flag "self-call"; an_option "topic" "echo" 0] /\
  _selfCall (accepted true "" "echo") =
    given "self-call" [a_flag "self-call"; an_option "topic" "echo" 0].
Proof.
  split; [vm_compute; reflexivity|]. split; [vm_compute; reflexivity|].
  apply (flags_follow_the_options (boost := po.boost_library)
           ["replier"; "-s"; "echo"] _ (initial (false, false)) _ [] []);
    vm_compute; reflexivity.
Defined.

(** X4: on acceptance [_topic] is the positional argument: the command
    line carries an option [topic], and the value of every such option
    is the one string [_topic] holds. *)
Theorem topic_is_the_positional_argument {boost : po.library string_ref}
    (argv : list string) (options : list po.basic_option)
    (r0 r : refs) (out out' : ostream) :
  po.run desc positionalDesc argv = inr options ->
  ReadArgs argv r0 out = (Returns (0, r), out') ->
  (exists o, o ∈ options /\ po.string_key o = "topic" /\
             po.unregistered o = false) /\
  (forall o, o ∈ options -> po.string_key o = "topic" ->
             po.unregistered o = false -> po.value o = [_topic r]).
Proof.
  intros Hrun (options' & vm & Hrun' & Hp & _ & Ht & -> & _)%ReadArgs_accepts.
  rewrite Hrun in Hrun'. injection Hrun' as <-.
  split; [by apply given_true|].
  intros o Hin Hk Hu.
  destruct (accepted_entries _ _ _ Hrun Hp Ht) as (em & et & Hm & Htp).
  rewrite (accept_notify _ _ _ _ Hm Htp). cbn [_topic].
  destruct (parsed_value _ _ _ _ "topic" Hrun Hp Hin Hk Hu) as (x & Hx & ->); [auto|].
  rewrite Htp in Hx. by injection Hx as ->.
Qed.

Lemma replier_topic :
  po.run (library := po.boost_library) desc positionalDesc
    ["replier"; "-s"; "echo"] = inr [a_flag "self-call"; an_option "topic" "echo" 0] /\
  replier_ReadArgs ["replier"; "-s"; "echo"] =
    (Returns (0, accepted true "" "echo"), []) /\
  (exists o, o ∈ [a_flag "self-call"; an_option "topic" "echo" 0] /\
             po.string_key o = "topic" /\ po.unregistered o = false) /\
  (forall o, o ∈ [a_flag "self-call"; an_option "topic" "echo" 0] ->
             po.string_key o = "topic" -> po.unregistered o = false ->
             po.value o = [_topic (accepted true "" "echo")]).
Proof.
  split; [vm_compute; reflexivity|]. split; [vm_compute; reflexivity|].
  apply (topic_is_the_positional_argument (boost := po.boost_library)
           ["replier"; "-s"; "echo"] _ (initial (false, false)) _ [] []);
    vm_compute; reflexivity.
Defined.

(** X5: what [ReadArgs] leaves behind when it returns -1. The usage has
    been printed once and the two flags are as they were. After an error
    of the parser nothing has been assigned. When the command line parsed
    and was refused for [--help] or for the missing topic, [notify] has
    run already: [_master] holds the value given, or the default, and
    [_topic] the topic given, or what it held. *)
Theorem ReadArgs_failure_assigns_master_and_topic
    {boost : po.library string_ref}
    (argv : list string) (r0 r : refs) (out out' : ostream) :
  ReadArgs argv r0 out = (Returns (-1, r), out') ->
  out' = out ++ [usage] /\
  _verbose r = _verbose r0 /\ _selfCall r = _selfCall r0 /\
  (forall e, parse argv = inl e -> r = r0) /\
  (forall options vm,
     po.run desc positionalDesc argv = inr options -> parse argv = inr vm ->
     (given "master" options = false -> _master r = "") /\
     (forall o, o ∈ options -> po.string_key o = "master" ->
                po.unregistered o = false -> po.value o = [_master r]) /\
     (given "topic" options = false -> _topic r = _topic r0) /\
     (forall o, o ∈ options -> po.string_key o = "topic" ->
                po.unregistered o = false -> po.value o = [_topic r])).
Proof.
  intros H. destruct (parse argv) as [e|vm] eqn:Hp.
  { rewrite (ReadArgs_raised _ _ _ _ Hp) in H. injection H as <- <-.
    split_and!; try done. }
  rewrite (ReadArgs_parsed _ _ _ _ Hp) in H. cbv zeta in H.
  destruct (_ || _); [|discriminate H]. injection H as <- <-.
  rewrite notify_run. cbv zeta.
  destruct (count_master _ _ Hp) as [em Hm]. rewrite Hm.
  split_and!; [done|by destruct (po.m vm !! "topic")..|done|].
  intros options vm' Hrun [= <-]. split_and!.
  - intros Hg. rewrite (master_not_given _ _ _ Hrun Hp Hg) in Hm.
    injection Hm as <-. by destruct (po.m vm !! "topic").
  - intros o Hin Hk Hu.
    destruct (parsed_value _ _ _ _ "master" Hrun Hp Hin Hk Hu) as (x & Hx & ->);
      [auto|].
    rewrite Hm in Hx. injection Hx as <-. by destruct (po.m vm !! "topic").
  - intros Hg. pose proof (count_given _ _ _ "topic" Hrun Hp) as Hc.
    rewrite Hg in Hc. unfold po.count in Hc.
    destruct (po.m vm !! "topic"); [by discriminate Hc|done].
  - intros o Hin Hk Hu.
    destruct (parsed_value _ _ _ _ "topic" Hrun Hp Hin Hk Hu) as (x & Hx & ->);
      [auto|].
    by rewrite Hx.
Qed.

Lemma replier_help_assigns_master :
  ReadArgs (boost := po.boost_library)
    ["replier"; "--help"; "-m"; "tcp://hub:5555"; "echo"]
    (initial (true, true)) [] =
    (Returns (-1, {| _verbose := true; _selfCall := true;
                     _master := "tcp://hub:5555"; _topic := "echo" |}),
     [usage (boost := po.boost_library)]) /\
  [usage (boost := po.boost_library)] = [] ++ [usage (boost := po.boost_library)] /\
  true = _verbose (initial (true, true)) /\
  true = _selfCall (initial (true, true)).
Proof.
  split; [vm_compute; reflexivity|].
  pose proof (ReadArgs_failure_assigns_master_and_topic
                (boost := po.boost_library)
                ["replier"; "--help"; "-m"; "tcp://hub:5555"; "echo"]
                (initial (true, true)) _ [] _ ltac:(vm_compute; reflexivity))
    as (H1 & H2 & H3 & _).
  exact (conj H1 (conj H2 H3)).
Defined.

(** X6: an option given twice is refused. When two of the parsed
    options have the same name, [store] raises an error, which
    [ReadArgs] catches: it prints the usage, returns -1 and has assigned
    nothing. *)
Theorem repeated_option_is_refused {boost : po.library string_ref}
    (argv : list string) (l1 l2 l3 : list po.basic_option)
    (o1 o2 : po.basic_option) (r0 : refs) (out : ostream) :
  po.run desc positionalDesc argv = inr (l1 ++ o1 :: l2 ++ o2 :: l3) ->
  po.string_key o1 <> "" -> po.string_key o2 = po.string_key o1 ->
  po.unregistered o1 = false -> po.unregistered o2 = false ->
  ReadArgs argv r0 out = (Returns (-1, r0), out ++ [usage]).
Proof.
  intros Hrun Hne Hk Hu1 Hu2.
  destruct (store_options_again desc ∅ l1 o1 l2 o2 l3 Hne Hk Hu1 Hu2) as [e He].
  apply (ReadArgs_raised _ _ _ e).
  rewrite (parse_store _ _ Hrun). unfold po.store.
  cbn [po.m po.m_final po.empty_variables_map]. by rewrite He.
Qed.

Lemma replier_verbose_twice :
  ReadArgs (boost := po.boost_library) ["replier"; "-v"; "echo"; "--verbose"]
    (initial (false, false)) [] =
    (Returns (-1, initial (false, false)),
     [] ++ [usage (boost := po.boost_library)]).
Proof.
  apply (repeated_option_is_refused (boost := po.boost_library)
           ["replier"; "-v"; "echo"; "--verbose"]
           [] [an_option "topic" "echo" 0] [] (a_flag "verbose") (a_flag "verbose"));
    [vm_compute; reflexivity|done..].
Defined.

(** X7: [ReadArgs] assigns each of its four output arguments when it
    accepts: the values they hold on return do not depend on the values
    they held on entry. *)
Theorem ReadArgs_assigns_every_output {boost : po.library string_ref}
    (argv : list string) (r0 r0' r : refs) (out out' : ostream) :
  ReadArgs argv r0 out = (Returns (0, r), out') ->
  ReadArgs argv r0' out = (Returns (0, r), out').
Proof.
  intros H.
  destruct (ReadArgs_initial argv r0 r0' out)
    as (code & r1 & r1' & out1 & H1 & H2 & Hr).
  rewrite H1 in H. injection H as -> <- <-. by rewrite H2, (Hr eq_refl).
Qed.

Lemma replier_overwrites_its_arguments :
  ReadArgs (boost := po.boost_library) ["replier"; "echo"]
    {| _verbose := true; _selfCall := true; _master := "tcp://old:1";
       _topic := "old" |} [] =
    (Returns (0, accepted false "" "echo"), []).
Proof.
  apply (ReadArgs_assigns_every_output (boost := po.boost_library)
           ["replier"; "echo"] (initial (false, false))).
  vm_compute; reflexivity.
Defined.

(** X8: the order of the options on the command line does not matter.
    Two command lines whose parsed options are the same up to their
    order get the same return code, the same values and the same
    output from [ReadArgs]. *)
Theorem option_order_does_not_matter {boost : po.library string_ref}
    (argv1 argv2 : list string) (l1 l2 : list po.basic_option)
    (r0 : refs) (out : ostream) :
  po.run desc positionalDesc argv1 = inr l1 ->
  po.run desc positionalDesc argv2 = inr l2 ->
  l1 ≡ₚ l2 ->
  ReadArgs argv1 r0 out = ReadArgs argv2 r0 out.
Proof.
  intros H1 H2 Hp.
  pose proof (store_options_Permutation desc ∅ _ _ Hp) as Ha.
  pose proof (parse_store _ _ H1) as P1. pose proof (parse_store _ _ H2) as P2.
  unfold po.store in P1, P2.
  cbn [po.m po.m_final po.empty_variables_map] in P1, P2.
  destruct (po.store_options desc ∅ ∅ l1) as [e1|xm1];
    destruct (po.store_options desc ∅ ∅ l2) as [e2|xm2]; try done.
  - by rewrite (ReadArgs_raised _ _ _ _ P1), (ReadArgs_raised _ _ _ _ P2).
  - simpl in Ha. subst xm2. by apply (ReadArgs_of_map _ _ _ _ _ _ P1 P2).
Qed.

Lemma replier_options_in_any_order :
  ReadArgs (boost := po.boost_library)
    ["replier"; "-s"; "echo"; "-m"; "tcp://hub:5555"] (initial (false, false)) [] =
  ReadArgs (boost := po.boost_library)
    ["replier"; "--master=tcp://hub:5555"; "echo"; "-s"] (initial (false, false)) [].
Proof.
  apply (option_order_does_not_matter (boost := po.boost_library) _ _
           [a_flag "self-call"; an_option "topic" "echo" 0;
            an_option "master" "tcp://hub:5555" (-1)]
           [an_option "master" "tcp://hub:5555" (-1); an_option "topic" "echo" 0;
            a_flag "self-call"]);
    [vm_compute; reflexivity..|].
  etrans; [apply (Permutation_cons_append _ (a_flag "self-call"))|]. simpl.
  etrans; [apply perm_swap|]. reflexivity.
Defined.

(** X9: the exit code of [main]. When [main] returns, it returns -1 or
    0: -1 exactly when the command line was turned down, with the usage
    printed and no call on a node; 0 only when [ReadArgs] accepted, every
    call on the node was made and [Spin] has returned. *)
Theorem main_exit_code {boost : po.library string_ref}
    {Node : Type} {node_api : NodeAPI Node}
    (argv : list string) (i : bool * bool) (p p' : process) (code : Z) :
  main argv i p = (Returns code, p') ->
  (code = -1 /\ rejects argv /\
   p' = {| env := say usage (env p); calls := calls p |}) \/
  (code = 0 /\ ~ rejects argv /\
   exists r n w n',
     ReadArgs argv (initial i) (stdout (env p)) =
       (Returns (0, r), stdout (env p)) /\
     calls p' = calls p ++ calls_of_main r /\
     Spin n w = (Returns n', env p')).
Proof.
  intros H.
  destruct (ReadArgs_code argv (initial i) (stdout (env p)))
    as [[Hr [r Hra]]|[Hn [r Hra]]].
  - left. rewrite (main_rejected _ _ _ _ _ _ Hra) in H by done.
    by injection H as <- <-.
  - right. rewrite (main_accepted _ _ _ _ _ Hra) in H. cbv zeta in H.
    unfold from_self_call, spins, stopped_in, calls_of_main in H |- *.
    destruct (Node_new _ _ _) as [[n0| | |] w0]; try discriminate H.
    destruct (SrvAdvertise _ _ _ _) as [[[rc n1]| | |] w1]; try discriminate H.
    destruct (_selfCall r) eqn:Hsc.
    + destruct (SrvRequest _ _ _ _ _) as [[[[rc2 resp] n2]| | |] w2];
        try discriminate H.
      destruct (Spin n2 (after_request rc2 resp w2)) as [[n'| | |] w'] eqn:Hs;
        try discriminate H.
      injection H as <- <-. split_and!; [done..|].
      exists r, n2, (after_request rc2 resp w2), n'. split_and!; [done| |done].
      rewrite Hsc. cbn [calls app]. by rewrite <- ?app_assoc.
    + destruct (Spin n1 (after_advertise rc w1)) as [[n'| | |] w'] eqn:Hs;
        try discriminate H.
      injection H as <- <-. split_and!; [done..|].
      exists r, n1, (after_advertise rc w1), n'. split_and!; [done| |done].
      rewrite Hsc. cbn [calls app]. by rewrite <- ?app_assoc.
Qed.

Lemma replier_exit_codes :
  replier_offline ["replier"; "-s"; "echo"] quiet =
    (Returns 0,
     {| env := {| stdout := [advertise_failed; response_line ""];
                  inbox := []; outbox := [] |};
        calls := [call_Node "" false; call_SrvAdvertise "echo" echo;
                  call_SrvRequest "echo" "" ""; call_Spin] |}) /\
  ~ rejects (boost := po.boost_library) ["replier"; "-s"; "echo"] /\
  replier_offline ["replier"] quiet =
    (Returns (-1),
     {| env := say (usage (boost := po.boost_library)) quiet; calls := [] |}) /\
  rejects (boost := po.boost_library) ["replier"].
Proof.
  assert (replier_offline ["replier"; "-s"; "echo"] quiet =
    (Returns 0,
     {| env := {| stdout := [advertise_failed; response_line ""];
                  inbox := []; outbox := [] |};
        calls := [call_Node "" false; call_SrvAdvertise "echo" echo;
                  call_SrvRequest "echo" "" ""; call_Spin] |})) as H0
    by (vm_compute; reflexivity).
  assert (replier_offline ["replier"] quiet =
    (Returns (-1),
     {| env := say (usage (boost := po.boost_library)) quiet; calls := [] |})) as H1
    by (vm_compute; reflexivity).
  split; [exact H0|]. split.
  - destruct (main_exit_code (boost := po.boost_library) (node_api := offline_node)
                _ _ _ _ _ H0) as [[Hc _]|(_ & Hn & _)];
      [discriminate Hc|exact Hn].
  - split; [exact H1|].
    destruct (main_exit_code (boost := po.boost_library) (node_api := offline_node)
                _ _ _ _ _ H1) as [(_ & Hr & _)|[Hc _]];
      [exact Hr|discriminate Hc].
Defined.

(** X10: the calls [main] makes on the node, and their order. On an
    accepted command line [main] is the run of the constructor, then of
    [SrvAdvertise] on the node it returns, then in self-call mode of
    [SrvRequest], then of [Spin], each on the node and in the world the
    call before has left, and it ends at the first of them that does not
    return. Without [--self-call] no request is made: [main] does the
    same on a node with any other [SrvRequest]. The calls put on record
    begin with the constructor and are an initial part of that
    sequence. *)
Theorem main_calls_the_node_in_order {boost : po.library string_ref}
    {Node : Type} {node_api : NodeAPI Node}
    (argv : list string) (i : bool * bool) (p : process) (r : refs)
    (out' : ostream) :
  ReadArgs argv (initial i) (stdout (env p)) = (Returns (0, r), out') ->
  let c_new := call_Node (_master r) (_verbose r) in
  let c_adv := call_SrvAdvertise (_topic r) echo in
  let c_req := call_SrvRequest (_topic r) "" "" in
  main argv i p =
    match Node_new (_master r) (_verbose r) (set_stdout out' (env p)) with
    | (Returns n0, w0) =>
        match SrvAdvertise n0 (_topic r) echo w0 with
        | (Returns (rc, n1), w1) =>
            if _selfCall r then
              match SrvRequest n1 (_topic r) "" "" (after_advertise rc w1) with
              | (Returns (rc2, response, n2), w2) =>
                  spins n2 (after_request rc2 response w2)
                    [c_new; c_adv; c_req] p
              | (o, w2) => stopped_in o w2 [c_new; c_adv; c_req] p
              end
            else spins n1 (after_advertise rc w1) [c_new; c_adv] p
        | (o, w1) => stopped_in o w1 [c_new; c_adv] p
        end
    | (o, w0) => stopped_in o w0 [c_new] p
    end /\
  (_selfCall r = false ->
   forall request,
     main (node_api := with_SrvRequest request) argv i p = main argv i p) /\
  exists made,
    calls (snd (main argv i p)) = calls p ++ made /\
    [call_Node (_master r) (_verbose r)] `prefix_of` made /\
    made `prefix_of` calls_of_main r /\
    (_selfCall r = false ->
     forall topic data response, call_SrvRequest topic data response ∉ made).
Proof.
  intros H c_new c_adv c_req. split_and!.
  { by rewrite (main_accepted _ _ _ _ _ H). }
  { intros Hs request.
    rewrite (main_accepted (node_api := with_SrvRequest request) _ _ _ _ _ H).
    rewrite (main_accepted (node_api := node_api) _ _ _ _ _ H).
    cbv zeta. unfold from_self_call. rewrite Hs. reflexivity. }
  clear c_new c_adv c_req.
  rewrite (main_accepted _ _ _ _ _ H). cbv zeta.
  assert (forall made,
            made `prefix_of` calls_of_main r -> _selfCall r = false ->
            forall topic data response,
              call_SrvRequest topic data response ∉ made) as Hno.
  { intros made [k Hk] Hs topic data response Hin.
    assert (call_SrvRequest topic data response ∈ calls_of_main r) as Hin'
      by (rewrite Hk; set_solver).
    unfold calls_of_main in Hin'. rewrite Hs in Hin'.
    repeat (apply elem_of_cons in Hin' as [Hin'|Hin']; [discriminate Hin'|]).
    by apply elem_of_nil in Hin'. }
  unfold from_self_call, spins, stopped_in.
  destruct (Node_new _ _ _) as [[n0| | |] w0];
    [|exists [call_Node (_master r) (_verbose r)];
      (assert ([call_Node (_master r) (_verbose r)] `prefix_of` calls_of_main r)
         by (by eexists); split_and!; [done|done|done|by apply Hno])..].
  destruct (SrvAdvertise _ _ _ _) as [[[rc n1]| | |] w1];
    [|exists [call_Node (_master r) (_verbose r); call_SrvAdvertise (_topic r) echo];
      (assert ([call_Node (_master r) (_verbose r);
                call_SrvAdvertise (_topic r) echo] `prefix_of` calls_of_main r)
         by (by eexists);
       split_and!; [done|by eexists|done|by apply Hno])..].
  destruct (_selfCall r) eqn:Hs.
  - destruct (SrvRequest _ _ _ _ _) as [[[[rc2 resp] n2]| | |] w2];
      [exists (calls_of_main r); unfold calls_of_main; rewrite Hs;
       split_and!; [by cbn; rewrite <- ?app_assoc|by eexists|done|done]
      |exists [call_Node (_master r) (_verbose r); call_SrvAdvertise (_topic r) echo;
               call_SrvRequest (_topic r) "" ""];
       unfold calls_of_main; rewrite Hs;
       split_and!; [done|by eexists|by eexists|done]..].
  - exists (calls_of_main r).
    assert (calls_of_main r `prefix_of` calls_of_main r) as Hp by done.
    pose proof (Hno _ Hp eq_refl) as Hn. unfold calls_of_main in Hn |- *.
    rewrite Hs in Hn |- *.
    split_and!; [by cbn; rewrite <- ?app_assoc|by eexists|done|done].
Qed.

Lemma replier_calls_in_order :
  replier_ReadArgs ["replier"; "echo"] =
    (Returns (0, accepted false "" "echo"), []) /\
  replier_tracing ["replier"; "echo"] quiet =
    traced ["Node()"; "SrvAdvertise(echo)"; "Spin()"]
      [call_Node "" false; call_SrvAdvertise "echo" echo; call_Spin] /\
  main (boost := po.boost_library)
    (node_api := with_SrvRequest (node_api := tracing_node)
                   (fun _ _ _ _ _ => (Hangs, quiet)))
    ["replier"; "echo"] (false, false) (fresh quiet) =
    replier_tracing ["replier"; "echo"] quiet.
Proof.
  pose proof (main_calls_the_node_in_order (boost := po.boost_library)
                (node_api := tracing_node)
                ["replier"; "echo"] (false, false) (fresh quiet)
                (accepted false "" "echo") []
                ltac:(vm_compute; reflexivity))
    as (Hmain & Hrequest & _).
  split; [vm_compute; reflexivity|]. split.
  - unfold replier_tracing. rewrite Hmain. vm_compute; reflexivity.
  - apply (Hrequest eq_refl).
Defined.

(** X11: a failed request does not end [main] either. In self-call
    mode, whatever code [SrvRequest] returns, [main] enters [Spin] next;
    it has printed the response when the code is 0 and the failure
    message, without the response, when it is not. *)
Theorem failed_request_is_not_fatal {boost : po.library string_ref}
    {Node : Type} {node_api : NodeAPI Node} (argv : list string)
    (i : bool * bool) (p : process) (r : refs) (out' : ostream)
    (n0 n1 n2 : Node) (w0 w1 w2 : world) (rc rc2 : Z) (response : string) :
  ReadArgs argv (initial i) (stdout (env p)) = (Returns (0, r), out') ->
  Node_new (_master r) (_verbose r) (set_stdout out' (env p)) = (Returns n0, w0) ->
  SrvAdvertise n0 (_topic r) echo w0 = (Returns (rc, n1), w1) ->
  _selfCall r = true ->
  SrvRequest n1 (_topic r) "" "" (after_advertise rc w1) =
    (Returns (rc2, response, n2), w2) ->
  let made := [call_Node (_master r) (_verbose r);
               call_SrvAdvertise (_topic r) echo;
               call_SrvRequest (_topic r) "" ""] in
  main argv i p = spins n2 (after_request rc2 response w2) made p /\
  (rc2 <> 0 -> after_request rc2 response w2 = say request_failed w2) /\
  (rc2 = 0 -> after_request rc2 response w2 = say (response_line response) w2) /\
  calls (snd (main argv i p)) = calls p ++ calls_of_main r /\
  fst (main argv i p) <> Returns (-1).
Proof.
  intros Hargs Hnew Hadv Hs Hreq made.
  assert (main argv i p = spins n2 (after_request rc2 response w2) made p) as Hm.
  { rewrite (main_accepted _ _ _ _ _ Hargs). cbv zeta. rewrite Hnew, Hadv.
    unfold from_self_call. by rewrite Hs, Hreq. }
  split_and!; [done| | | |].
  - intros Hne%Z.eqb_neq. unfold after_request. by rewrite Hne.
  - by intros ->.
  - rewrite Hm. unfold spins, calls_of_main, made. rewrite Hs. cbn.
    by rewrite <- ?app_assoc.
  - by apply (main_never_returns_failure _ _ _ _ _ Hargs).
Qed.

Lemma replier_request_fails :
  replier_ReadArgs ["replier"; "-s"; "echo"] =
    (Returns (0, accepted true "" "echo"), []) /\
  main (boost := po.boost_library) (node_api := deaf_node)
    ["replier"; "-s"; "echo"] (false, false) (fresh quiet) =
    (Returns 0,
     {| env := {| stdout := [request_failed]; inbox := []; outbox := [] |};
        calls := [call_Node "" false; call_SrvAdvertise "echo" echo;
                  call_SrvRequest "echo" "" ""; call_Spin] |}) /\
  calls (snd (main (boost := po.boost_library) (node_api := deaf_node)
                ["replier"; "-s"; "echo"] (false, false) (fresh quiet))) =
    [] ++ calls_of_main (accepted true "" "echo").
Proof.
  split; [vm_compute; reflexivity|]. split; [vm_compute; reflexivity|].
  apply (failed_request_is_not_fatal (boost := po.boost_library)
           (node_api := deaf_node) ["replier"; "-s"; "echo"] (false, false)
           (fresh quiet) (accepted true "" "echo") [] tt tt tt quiet quiet quiet
           0 (-1) "");
    vm_compute; reflexivity.
Defined.

(** X12: [main] handles no failure of the node. On an accepted command
    line, a call on the node that does not return (the constructor,
    [SrvAdvertise] or [SrvRequest] throws, aborts or hangs) ends [main]
    in the same way at that call: no later call is made and nothing more
    is printed. *)
Theorem a_failure_of_the_node_ends_main {boost : po.library string_ref}
    {Node : Type} {node_api : NodeAPI Node} (argv : list string)
    (i : bool * bool) (p : process) (r : refs) (out' : ostream) :
  ReadArgs argv (initial i) (stdout (env p)) = (Returns (0, r), out') ->
  let c_new := call_Node (_master r) (_verbose r) in
  let c_adv := call_SrvAdvertise (_topic r) echo in
  let c_req := call_SrvRequest (_topic r) "" "" in
  (forall o w0,
     Node_new (_master r) (_verbose r) (set_stdout out' (env p)) = (o, w0) ->
     returned o = false ->
     main argv i p = stopped_in o w0 [c_new] p) /\
  (forall n0 w0 o w1,
     Node_new (_master r) (_verbose r) (set_stdout out' (env p)) = (Returns n0, w0) ->
     SrvAdvertise n0 (_topic r) echo w0 = (o, w1) ->
     returned o = false ->
     main argv i p = stopped_in o w1 [c_new; c_adv] p) /\
  (forall n0 w0 rc n1 w1 o w2,
     Node_new (_master r) (_verbose r) (set_stdout out' (env p)) = (Returns n0, w0) ->
     SrvAdvertise n0 (_topic r) echo w0 = (Returns (rc, n1), w1) ->
     _selfCall r = true ->
     SrvRequest n1 (_topic r) "" "" (after_advertise rc w1) = (o, w2) ->
     returned o = false ->
     main argv i p = stopped_in o w2 [c_new; c_adv; c_req] p).
Proof.
  intros Hargs c_new c_adv c_req.
  rewrite (main_accepted _ _ _ _ _ Hargs). cbv zeta. split_and!.
  - intros o w0 -> Ho. by destruct o.
  - intros n0 w0 o w1 -> -> Ho. by destruct o.
  - intros n0 w0 rc n1 w1 o w2 -> -> Hs Hreq Ho.
    unfold from_self_call. rewrite Hs, Hreq. by destruct o.
Qed.

Lemma replier_on_a_broken_node :
  replier_ReadArgs ["replier"; "-s"; "echo"] =
    (Returns (0, accepted true "" "echo"), []) /\
  main (boost := po.boost_library) (node_api := broken_node)
    ["replier"; "-s"; "echo"] (false, false) (fresh quiet) =
    (Throws (std_exception "Address already in use"),
     {| env := quiet;
        calls := [call_Node "" false; call_SrvAdvertise "echo" echo] |}).
Proof.
  split; [vm_compute; reflexivity|].
  apply (proj1 (proj2
    (a_failure_of_the_node_ends_main (boost := po.boost_library)
       (node_api := broken_node) ["replier"; "-s"; "echo"] (false, false)
       (fresh quiet) (accepted true "" "echo") []
       ltac:(vm_compute; reflexivity))) tt quiet
    (Throws (std_exception "Address already in use")) quiet);
    reflexivity.
Defined.

(** X13: [main] passes [verbose] and [selfCall] to [ReadArgs] without
    an initial value, and no run reads what they hold: whatever they
    hold at first, [main] does the same. *)
Theorem main_reads_no_indeterminate_value {boost : po.library string_ref}
    {Node : Type} {node_api : NodeAPI Node} (argv : list string)
    (i1 i2 : bool * bool) (p : process) :
  main argv i1 p = main argv i2 p.
Proof.
  destruct (ReadArgs_initial argv (initial i1) (initial i2) (stdout (env p)))
    as (code & r & r' & out' & H1 & H2 & Hr).
  destruct (decide (code = 0)) as [->|Hc].
  - rewrite <- (Hr eq_refl) in H2.
    by rewrite (main_accepted _ _ _ _ _ H1), (main_accepted _ _ _ _ _ H2).
  - by rewrite (main_rejected _ _ _ _ _ _ H1 Hc), (main_rejected _ _ _ _ _ _ H2 Hc).
Qed.

(** X14: the assignment of lines 80-81 changes nothing. When
    [ReadArgs] accepts, the variables map has an entry [master] (given,
    or the default), so the test of line 80 holds and the read of line 81
    does not fail; the value read is the one [notify] has stored in
    [_master] already, and [_master] and [_topic] are on return as
    [notify] left them. *)
Theorem master_is_assigned_by_notify {boost : po.library string_ref}
    (argv : list string) (r0 r : refs) (out out' : ostream) :
  ReadArgs argv r0 out = (Returns (0, r), out') ->
  exists vm,
    parse argv = inr vm /\
    po.count vm "master" = 1%nat /\
    po.as_string vm "master" = inr (_master (po.notify assign desc vm r0)) /\
    _master r = _master (po.notify assign desc vm r0) /\
    _topic r = _topic (po.notify assign desc vm r0).
Proof.
  intros (options & vm & _ & Hp & _ & _ & -> & _)%ReadArgs_accepts.
  exists vm. destruct (count_master _ _ Hp) as [em Hm].
  rewrite notify_run. unfold po.count, po.as_string, accept. rewrite Hm.
  cbv zeta. destruct (po.m vm !! "topic"); split_and!; done.
Qed.

Lemma replier_master_is_assigned_by_notify :
  exists vm,
    parse (boost := po.boost_library)
      ["replier"; "-m"; "tcp://hub:5555"; "echo"] = inr vm /\
    po.count vm "master" = 1%nat /\
    po.as_string vm "master" =
      inr (_master (po.notify assign desc vm (initial (false, false)))) /\
    _master (accepted false "tcp://hub:5555" "echo") =
      _master (po.notify assign desc vm (initial (false, false))) /\
    _topic (accepted false "tcp://hub:5555" "echo") =
      _topic (po.notify assign desc vm (initial (false, false))).
Proof.
  apply (master_is_assigned_by_notify (boost := po.boost_library)
           ["replier"; "-m"; "tcp://hub:5555"; "echo"] (initial (false, false))
           (accepted false "tcp://hub:5555" "echo") [] []).
  vm_compute; reflexivity.
Defined.
